(** * Transaction execution of the thor runtime

    A shallow embedding of [runtime.ExecuteTransaction], [runtime.commonTo]
    (package [runtime]) and [types.ConvertReceipt] (package [types]), with
    the properties of gas accounting, energy settlement, rollback and
    receipt formatting proved about them.

    Conventions.
    - A [uint64] is a [Z] in [0, 2^64); subtraction and addition wrap
      around and are written [sub64] and [add64].
    - A [*big.Int] is a [Z].
    - A Go pointer that the code may leave or find [nil] is an [option].
    - A run-time panic is the result [None] of a function in the option
      monad. *)

From Stdlib Require Import ZArith Lia List String Ascii.
From Stdlib.Strings Require Import Byte.
From stdpp Require Import base option list.

Import ListNotations.
Local Open Scope Z_scope.

(** ** Machine integers and big integers *)

Definition uint64_modulus : Z := 2 ^ 64.

Definition is_uint64 (x : Z) : Prop := 0 <= x < uint64_modulus.

(** [a - b] on [uint64]. *)
Definition sub64 (a b : Z) : Z := (a - b) mod uint64_modulus.

(** [a + b] on [uint64]. *)
Definition add64 (a b : Z) : Z := (a + b) mod uint64_modulus.

(** go-ethereum [math.BigMin]: [if x.Cmp(y) > 0 { return y }; return x]. *)
Definition BigMin (x y : Z) : Z := if x >? y then y else x.

(** [Uint64] of a big integer: the low 64 bits of the absolute value. *)
Definition BigUint64 (x : Z) : Z := Z.abs x mod uint64_modulus.

(** [error] values are represented by their message; [errors.New msg]. *)
Definition error : Type := string.
Definition errors_New (msg : string) : error := msg.

(** ** Package thor: addresses and hashes *)

Module thor.

(** [thor.Address] is a 20-byte array and [thor.Hash] a 32-byte array,
    both compared with [==]; each is represented by the number its bytes
    spell. *)
Definition Address : Type := N.
Definition Hash : Type := N.

(** [thor.Address{}], the all-zero address. *)
Definition Address_zero : Address := 0%N.

End thor.

(** ** Package vm: what the runtime sees of the interpreter *)

Module vm.

(** [vm.Log]. *)
Record Log : Type := {
  Address : thor.Address;
  Topics : list thor.Hash;
  Data : list byte;
}.

(** [vm.Output], the fields [ExecuteTransaction] reads. [Logs] is a
    [[]*vm.Log]; the code only ranges over it, so the nil and the empty
    slice are both the empty list. *)
Record Output : Type := {
  LeftOverGas : Z;
  RefundGas : Z;
  Logs : list (option Log);
  VMErr : option error;
}.

(** [vm.Context], as [Runtime.execute] fills it. *)
Record Context : Type := {
  Beneficiary : thor.Address;
  BlockNumber : Z;
  Time : Z;
  GasLimit : Z;
  Origin : thor.Address;
  GasPrice : Z;
  TxHash : thor.Hash;
  GetHash : Z -> thor.Hash;
  ClauseIndex : Z;
}.

(** The interpreter [vm.New(ctx, state, config)] with the three native
    contracts hooked, seen through its three entry points; package [vm]
    is not among the sources, so the interpreter is a parameter. Each
    entry point runs on the key-value content [World] of the state and
    returns the content it leaves. *)
Class VM (World Config : Type) : Type := {
  Create : Context -> Config -> thor.Address -> list byte -> Z -> Z ->
           World -> Output * World;
  Call : Context -> Config -> thor.Address -> thor.Address -> list byte -> Z -> Z ->
         World -> Output * World;
  StaticCall : Context -> Config -> thor.Address -> thor.Address -> list byte -> Z ->
               World -> Output * World;
}.

(** What the spec says of the interpreter's gas, for use as an
    assumption: the gas it leaves is at most the gas supplied, and the
    refund it proposes is an amount, not a negative number. *)
Definition gas_bounded (gas : Z) (out : Output) : Prop :=
  0 <= LeftOverGas out <= gas /\ 0 <= RefundGas out.

Definition gas_sound {World Config : Type} `{!VM World Config} : Prop :=
  forall ctx cfg origin data gas value w,
    is_uint64 gas ->
    gas_bounded gas (fst (Create ctx cfg origin data gas value w)) /\
    forall to, gas_bounded gas (fst (Call ctx cfg origin to data gas value w)).

End vm.

(** ** Package tx: clauses, transactions and receipts *)

Module Tx.

(** [tx.Clause] through its accessors [To], [Value] and [Data]. *)
Record Clause : Type := {
  To : option thor.Address;
  Value : Z;
  Data : list byte;
}.

(** [tx.Log] has the fields of [vm.Log]: the code converts a [*vm.Log]
    to a [*tx.Log] by a pointer conversion. [LogData] is the field
    [Data]; the name [Data] is the clause's accessor here. *)
Record Log : Type := {
  Address : thor.Address;
  Topics : list thor.Hash;
  LogData : list byte;
}.

(** The conversion of a [vm.Log] pointer to a [tx.Log] pointer: the same
    fields read at the other type; a nil pointer stays nil. *)
Definition Log_of_vm (vmLog : option vm.Log) : option Log :=
  match vmLog with
  | None => None
  | Some l => Some {| Address := vm.Address l; Topics := vm.Topics l; LogData := vm.Data l |}
  end.

(** [tx.Output]. *)
Record Output : Type := {
  Logs : list (option Log);
}.

(** [tx.Receipt]. [Outputs] is a [[]*Output]: [None] is the nil slice,
    and an element [None] a nil pointer. *)
Record Receipt : Type := {
  GasUsed : Z;
  GasPayer : thor.Address;
  Reverted : bool;
  Outputs : option (list (option Output));
}.

(** [tx.Transaction] through the accessors [ExecuteTransaction] calls:
    [Signer] and [IntrinsicGas] return a value or an error. *)
Record Transaction : Type := {
  Signer : thor.Address + error;
  IntrinsicGas : Z + error;
  Gas : Z;
  GasPrice : Z;
  Clauses : list Clause;
  ID : thor.Hash;
}.

(** [Gas] and [IntrinsicGas] return a [uint64]. *)
Definition gas_in_range (tx : Transaction) : Prop :=
  is_uint64 (Gas tx) /\ forall g, IntrinsicGas tx = inl g -> is_uint64 g.

End Tx.

(** ** Package state: the world-state store *)

Module state.

(** Modelled from the spec: the world-state store of package [state],
    which is not among the sources. The spec calls it an abstract
    transactional key-value store whose checkpoint is a handle on the
    state as of that point, supporting a later full rollback to exactly
    that point, discarding every write made since. The store is its
    current content [world] and the contents saved by the checkpoints
    still open; a handle is the position of its saved content. *)
Record State (World : Type) : Type := {
  world : World;
  checkpoints : list World;
}.
Arguments world {World} _.
Arguments checkpoints {World} _.

Section Store.
Context {World : Type}.

(** Modelled from the spec: [newCheckpoint() -> CheckpointHandle] of
    package [state]. The content is saved; the handle is its position. *)
Definition NewCheckpoint (st : State World) : nat * State World :=
  (length (checkpoints st),
   {| world := world st; checkpoints := checkpoints st ++ [world st] |}).

(** Modelled from the spec: [revertTo(CheckpointHandle)] of package
    [state]. The content is the saved one again; the checkpoint and those
    taken after it are closed. *)
Definition RevertTo (cp : nat) (st : State World) : State World :=
  match checkpoints st !! cp with
  | Some w => {| world := w; checkpoints := take cp (checkpoints st) |}
  | None => st
  end.

(** Modelled from the spec: the key-value reads and writes the
    interpreter and the native contracts make on the store. They run on
    [world] and leave the open checkpoints as they are. *)
Definition on_world {A : Type} (f : World -> A * World) (st : State World) : A * State World :=
  let '(a, w) := f (world st) in
  (a, {| world := w; checkpoints := checkpoints st |}).

End Store.

End state.

(** ** Package contracts: the energy contract *)

Module cs.

(** [cs.Energy], the native energy contract, through the three methods
    [ExecuteTransaction] calls; package [contracts] is not among the
    sources, so the contract is a parameter. The state argument comes
    last; [Consume] returns the payer, the success flag and the content
    it leaves. *)
Class Energy (World : Type) : Type := {
  Consume : Z -> thor.Address -> thor.Address -> Z -> World -> (thor.Address * bool) * World;
  GetBalance : Z -> thor.Address -> World -> Z;
  SetBalance : Z -> thor.Address -> Z -> World -> World;
}.

Section Laws.
Context {World : Type} `{!Energy World}.

(** What the spec says of the energy contract, for use as assumptions.

    A balance that was set is the balance read at the same block time. *)
Definition balance_stored : Prop :=
  forall blockTime addr v w, GetBalance blockTime addr (SetBalance blockTime addr v w) = v.

(** A successful [Consume] takes the amount from the payer it names. *)
Definition consume_debits : Prop :=
  forall blockTime caller callee amount w payer w',
    Consume blockTime caller callee amount w = ((payer, true), w') ->
    GetBalance blockTime payer w' = GetBalance blockTime payer w - amount.

(** A [Consume] that fails leaves the state as it found it. *)
Definition consume_failure_pure : Prop :=
  forall blockTime caller callee amount w payer w',
    Consume blockTime caller callee amount w = ((payer, false), w') -> w' = w.

End Laws.

End cs.

(** ** Package runtime *)

Module runtime.

(** The loop of [commonTo] over [clauses[1:]]. *)
Fixpoint commonTo_rest (firstTo : thor.Address) (rest : list Tx.Clause) : thor.Address :=
  match rest with
  | [] => firstTo
  | clause :: rest' =>
      match Tx.To clause with
      | None => thor.Address_zero
      | Some to =>
          if bool_decide (to <> firstTo) then thor.Address_zero
          else commonTo_rest firstTo rest'
      end
  end.

(** [commonTo] (lines 212-232): the common 'To' of the clauses, the
    empty address if there is none. *)
Definition commonTo (clauses : list Tx.Clause) : thor.Address :=
  match clauses with
  | [] => thor.Address_zero
  | first :: rest =>
      match Tx.To first with
      | None => thor.Address_zero
      | Some firstTo => commonTo_rest firstTo rest
      end
  end.


(** [Runtime], without its [state] field: the state is passed to and
    returned by every operation that touches it. *)
Record Runtime (Config : Type) : Type := {
  vmConfig : Config;
  getBlockID : Z -> thor.Hash;
  blockBeneficiary : thor.Address;
  blockNumber : Z;
  blockTime : Z;
  blockGasLimit : Z;
}.
Arguments vmConfig {Config} _.
Arguments getBlockID {Config} _.
Arguments blockBeneficiary {Config} _.
Arguments blockNumber {Config} _.
Arguments blockTime {Config} _.
Arguments blockGasLimit {Config} _.


(** The accessors (lines 46-50). *)
Definition State {World Config : Type} (rt : Runtime Config * state.State World)
    : state.State World := snd rt.
Definition BlockNumber {Config : Type} (rt : Runtime Config) : Z := blockNumber rt.


(** How one turn of the clause loop ends. *)
Inductive control : Type := Next | Break.

(** [s[i] = x] on a slice: a panic when [i] is out of range. *)
Definition slice_store {A : Type} (s : list A) (i : nat) (x : A) : option (list A) :=
  if decide (i < length s)%nat then Some (<[i:=x]> s) else None.

(** [(receipt, vmOutputs, err)] as Go returns them. *)
Definition results : Type :=
  (option Tx.Receipt * option (list (option vm.Output)) * option error)%type.

Section Execution.
Context {World Config : Type} `{!vm.VM World Config} `{!cs.Energy World}.

(** [Runtime.execute] (runtime.go, lines 59-105). A static call
    without recipient panics. The context is built, the interpreter made
    from it and the native contracts hooked; then the clause goes to one
    of the three entry points. *)
Definition execute (rt : Runtime Config) (clause : Tx.Clause) (index : nat) (gas : Z)
    (txOrigin : thor.Address) (txGasPrice : Z) (txID : thor.Hash) (isStatic : bool)
    (st : state.State World) : option (vm.Output * state.State World) :=
  let to := Tx.To clause in
  if isStatic && bool_decide (to = None) then None
  else
    let ctx := {|
      vm.Beneficiary := blockBeneficiary rt;
      vm.BlockNumber := blockNumber rt;
      vm.Time := blockTime rt;
      vm.GasLimit := blockGasLimit rt;
      vm.Origin := txOrigin;
      vm.GasPrice := txGasPrice;
      vm.TxHash := txID;
      vm.GetHash := getBlockID rt;
      vm.ClauseIndex := Z.of_nat index;
    |} in
    match to with
    | None =>
        Some (state.on_world
                (vm.Create ctx (vmConfig rt) txOrigin (Tx.Data clause) gas (Tx.Value clause)) st)
    | Some to =>
        if isStatic then
          Some (state.on_world
                  (vm.StaticCall ctx (vmConfig rt) txOrigin to (Tx.Data clause) gas) st)
        else
          Some (state.on_world
                  (vm.Call ctx (vmConfig rt) txOrigin to (Tx.Data clause) gas (Tx.Value clause)) st)
    end.

(** [Runtime.StaticCall]. *)
Definition StaticCall (rt : Runtime Config) (clause : Tx.Clause) (index : nat) (gas : Z)
    (txOrigin : thor.Address) (txGasPrice : Z) (txID : thor.Hash) (st : state.State World) :=
  execute rt clause index gas txOrigin txGasPrice txID true st.

(** [Runtime.Call]. *)
Definition Call (rt : Runtime Config) (clause : Tx.Clause) (index : nat) (gas : Z)
    (txOrigin : thor.Address) (txGasPrice : Z) (txID : thor.Hash) (st : state.State World) :=
  execute rt clause index gas txOrigin txGasPrice txID false st.

(** What the checks before execution hand over to the rest of
    [ExecuteTransaction]. *)
Record Prechecked : Type := {
  origin : thor.Address;
  intrinsicGas : Z;
  energyPayer : thor.Address;
  debited : state.State World;
}.

(** [ExecuteTransaction], from the signer to the energy prepayment
    (lines 134-157): the error and the state left on a rejection, or the
    values the rest runs with. *)
Definition precheck (rt : Runtime Config) (tx : Tx.Transaction) (st : state.State World)
    : Prechecked + error * state.State World :=
  match Tx.Signer tx with
  | inr err => inr (err, st)
  | inl origin =>
      match Tx.IntrinsicGas tx with
      | inr err => inr (err, st)
      | inl intrinsicGas =>
          let gas := Tx.Gas tx in
          if intrinsicGas >? gas then
            inr (errors_New "intrinsic gas exceeds provided gas", st)
          else
            let gasPrice := Tx.GasPrice tx in
            let clauses := Tx.Clauses tx in
            let energyPrepayed := gas * gasPrice in
            let '(energyPayer, ok, st) :=
              state.on_world
                (cs.Consume (blockTime rt) origin (commonTo clauses) energyPrepayed) st in
            if negb ok then inr (errors_New "insufficient energy", st)
            else
              inl {| origin := origin; intrinsicGas := intrinsicGas;
                     energyPayer := energyPayer; debited := st |}
      end
  end.

(** The variables the clause loop updates. *)
Record LoopState : Type := {
  leftOverGas : Z;
  receipt : Tx.Receipt;
  vmOutputs : list (option vm.Output);
  st : state.State World;
}.

(** The checkpoint, and the variables as they stand when the loop is
    entered (lines 159-165). *)
Definition enter_loop (tx : Tx.Transaction) (p : Prechecked) : nat * LoopState :=
  let gas := Tx.Gas tx in
  let clauses := Tx.Clauses tx in
  let '(clauseCheckpoint, st) := state.NewCheckpoint (debited p) in
  let leftOverGas := sub64 gas (intrinsicGas p) in
  let receipt := {|
    Tx.GasUsed := 0;
    Tx.GasPayer := thor.Address_zero;
    Tx.Reverted := false;
    Tx.Outputs := Some (replicate (length clauses) None);
  |} in
  let vmOutputs := replicate (length clauses) None in
  (clauseCheckpoint,
   {| leftOverGas := leftOverGas; receipt := receipt; vmOutputs := vmOutputs; st := st |}).

(** One turn of the clause loop (lines 168-194). *)
Definition clause_body (rt : Runtime Config) (tx : Tx.Transaction) (p : Prechecked)
    (clauseCheckpoint : nat) (i : nat) (clause : Tx.Clause) (ls : LoopState)
    : option (control * LoopState) :=
  match execute rt clause i (leftOverGas ls) (origin p) (Tx.GasPrice tx) (Tx.ID tx) false (st ls) with
  | None => None
  | Some (vmOutput, st) =>
      match slice_store (vmOutputs ls) i (Some vmOutput) with
      | None => None
      | Some vmOutputs =>
          let gasUsed := sub64 (leftOverGas ls) (vm.LeftOverGas vmOutput) in
          let leftOverGas := vm.LeftOverGas vmOutput in
          let halfUsed := gasUsed / 2 in
          let refund := BigMin (vm.RefundGas vmOutput) halfUsed in
          let leftOverGas := add64 leftOverGas (BigUint64 refund) in
          match vm.VMErr vmOutput with
          | Some _ =>
              let st := state.RevertTo clauseCheckpoint st in
              let receipt := {|
                Tx.GasUsed := Tx.GasUsed (receipt ls);
                Tx.GasPayer := Tx.GasPayer (receipt ls);
                Tx.Reverted := Tx.Reverted (receipt ls);
                Tx.Outputs := None;
              |} in
              Some (Break, {| leftOverGas := leftOverGas; receipt := receipt;
                              vmOutputs := vmOutputs; st := st |})
          | None =>
              let logs :=
                fold_left (fun logs vmLog => logs ++ [Tx.Log_of_vm vmLog])
                          (vm.Logs vmOutput) [] in
              match Tx.Outputs (receipt ls) with
              | None => None
              | Some outputs =>
                  match slice_store outputs i (Some {| Tx.Logs := logs |}) with
                  | None => None
                  | Some outputs =>
                      let receipt := {|
                        Tx.GasUsed := Tx.GasUsed (receipt ls);
                        Tx.GasPayer := Tx.GasPayer (receipt ls);
                        Tx.Reverted := Tx.Reverted (receipt ls);
                        Tx.Outputs := Some outputs;
                      |} in
                      Some (Next, {| leftOverGas := leftOverGas; receipt := receipt;
                                     vmOutputs := vmOutputs; st := st |})
                  end
              end
          end
      end
  end.

(** [for i, clause := range clauses] (line 167), from index [i] on. *)
Fixpoint clause_loop (rt : Runtime Config) (tx : Tx.Transaction) (p : Prechecked)
    (clauseCheckpoint : nat) (i : nat) (clauses : list Tx.Clause) (ls : LoopState)
    : option LoopState :=
  match clauses with
  | [] => Some ls
  | clause :: rest =>
      match clause_body rt tx p clauseCheckpoint i clause ls with
      | None => None
      | Some (Break, ls') => Some ls'
      | Some (Next, ls') => clause_loop rt tx p clauseCheckpoint (S i) rest ls'
      end
  end.

(** [ExecuteTransaction] after the loop (lines 197-207): the gas used,
    and the energy paid back to the payer. *)
Definition settle (rt : Runtime Config) (tx : Tx.Transaction) (p : Prechecked) (ls : LoopState)
    : results * state.State World :=
  let gas := Tx.Gas tx in
  let gasPrice := Tx.GasPrice tx in
  let receipt := {|
    Tx.GasUsed := sub64 gas (leftOverGas ls);
    Tx.GasPayer := Tx.GasPayer (receipt ls);
    Tx.Reverted := Tx.Reverted (receipt ls);
    Tx.Outputs := Tx.Outputs (receipt ls);
  |} in
  let energyToReturn := leftOverGas ls * gasPrice in
  let payerBalance := cs.GetBalance (blockTime rt) (energyPayer p) (state.world (st ls)) in
  let '(_, st) :=
    state.on_world
      (fun w => (tt, cs.SetBalance (blockTime rt) (energyPayer p) (payerBalance + energyToReturn) w))
      (st ls) in
  ((Some receipt, Some (vmOutputs ls), None), st).

(** [ExecuteTransaction]: [None] is a panic, otherwise the three results
    and the state left behind. *)
Definition ExecuteTransaction (rt : Runtime Config) (tx : Tx.Transaction) (st : state.State World)
    : option (results * state.State World) :=
  match precheck rt tx st with
  | inr (err, st) => Some ((None, None, Some err), st)
  | inl p =>
      let '(clauseCheckpoint, ls) := enter_loop tx p in
      match clause_loop rt tx p clauseCheckpoint 0 (Tx.Clauses tx) ls with
      | None => None
      | Some ls => Some (settle rt tx p ls)
      end
  end.

(** The loop head is reached with index [i] and variables [ls]: the
    loop is entered with [ls0], and a turn that does not break leads to
    the next index. *)
Inductive at_head (rt : Runtime Config) (tx : Tx.Transaction) (p : Prechecked)
    : nat -> LoopState -> Prop :=
  | at_head_enter : at_head rt tx p 0 (snd (enter_loop tx p))
  | at_head_next i clause ls ls' :
      at_head rt tx p i ls ->
      Tx.Clauses tx !! i = Some clause ->
      clause_body rt tx p (fst (enter_loop tx p)) i clause ls = Some (Next, ls') ->
      at_head rt tx p (S i) ls'.

(** Clause [i] is executed: the loop head is reached with index [i] and
    there is a clause at that index. *)
Definition executed (rt : Runtime Config) (tx : Tx.Transaction) (p : Prechecked) (i : nat) : Prop :=
  exists ls, at_head rt tx p i ls /\ (i < length (Tx.Clauses tx))%nat.

(** What holds of the variables when the loop head is reached with
    index [i]: both result slices have one slot per clause; the
    interpreter's outputs of the clauses before [i] are stored and carry
    no error, the later slots are nil; the receipt has an output for each
    clause before [i]; the checkpoint taken on entry is the last one
    open. *)
Definition loop_invariant (tx : Tx.Transaction) (p : Prechecked) (i : nat) (ls : LoopState) : Prop :=
  let n := length (Tx.Clauses tx) in
  length (vmOutputs ls) = n /\
  (forall j, (j < i)%nat ->
     exists out, vmOutputs ls !! j = Some (Some out) /\ vm.VMErr out = None) /\
  (forall j, (i <= j < n)%nat -> vmOutputs ls !! j = Some None) /\
  (exists outputs, Tx.Outputs (receipt ls) = Some outputs /\ length outputs = n /\
     forall j, (j < i)%nat -> exists output, outputs !! j = Some (Some output)) /\
  state.checkpoints (st ls) = state.checkpoints (debited p) ++ [state.world (debited p)].

(** The gas left after a clause that was given [before], for the
    interpreter's output [out]. *)
Definition gas_after (before : Z) (out : vm.Output) : Z :=
  add64 (vm.LeftOverGas out)
        (BigUint64 (BigMin (vm.RefundGas out) (sub64 before (vm.LeftOverGas out) / 2))).

(** The output of the interpreter for clause [i] when the loop head is
    reached with [ls]. *)
Definition vm_output (rt : Runtime Config) (tx : Tx.Transaction) (p : Prechecked)
    (i : nat) (clause : Tx.Clause) (ls : LoopState) : option vm.Output :=
  option_map fst
    (execute rt clause i (leftOverGas ls) (origin p) (Tx.GasPrice tx) (Tx.ID tx) false (st ls)).

End Execution.

End runtime.

(** ** go-ethereum's hexutil, as far as [ConvertReceipt] uses it *)

Module hexutil.

(** The table of [encoding/hex]. *)
Definition hextable : list ascii := list_ascii_of_string "0123456789abcdef".

Definition hexdigit (n : N) : ascii := nth (N.to_nat n) hextable "0"%char.

(** [hex.Encode]: two digits per byte, [hextable[v>>4]] then
    [hextable[v&0x0f]]. *)
Fixpoint hex (b : list byte) : string :=
  match b with
  | [] => EmptyString
  | v :: rest =>
      String (hexdigit (N.shiftr (Byte.to_N v) 4))
        (String (hexdigit (N.land (Byte.to_N v) 15)) (hex rest))
  end.

(** [hexutil.Encode]: the digits after the prefix [0x]. *)
Definition Encode (b : list byte) : string := String.append "0x" (hex b).

(** The value of a lower-case hex digit. *)
Definition hexval (c : ascii) : option N :=
  let n := N_of_ascii c in
  if ((48 <=? n) && (n <=? 57))%N then Some (n - 48)%N
  else if ((97 <=? n) && (n <=? 102))%N then Some (n - 87)%N
  else None.

(** Reading the digits back, two per byte. *)
Fixpoint unhex (s : string) : option (list byte) :=
  match s with
  | EmptyString => Some []
  | String hi (String lo rest) =>
      match hexval hi, hexval lo, unhex rest with
      | Some h, Some l, Some bytes =>
          match Byte.of_N (h * 16 + l) with
          | Some v => Some (v :: bytes)
          | None => None
          end
      | _, _, _ => None
      end
  | String _ EmptyString => None
  end.

(** Reading back what [Encode] writes: the prefix, then the digits. *)
Definition Decode (s : string) : option (list byte) :=
  match s with
  | String "0" (String "x" digits) => unhex digits
  | _ => None
  end.

End hexutil.

(** ** Package types: the receipt for JSON *)

Module types.

(** [types.ReceiptLog]. *)
Record ReceiptLog : Type := {
  Address : thor.Address;
  Topics : list thor.Hash;
  Data : string;
}.

(** [types.Output]; every element of [Logs] is a pointer
    [ConvertReceipt] has just allocated. *)
Record Output : Type := {
  Logs : list ReceiptLog;
}.

(** [types.Receipt]; [GasUsed] is a [math.HexOrDecimal64], a [uint64].
    Every element of [Outputs] is a pointer [ConvertReceipt] has just
    allocated. *)
Record Receipt : Type := {
  GasUsed : Z;
  GasPayer : thor.Address;
  Reverted : bool;
  Outputs : list Output;
}.

(** The innermost loop: a fresh slice of the same length, slot [k]
    filled with topic [k]. *)
Definition copy_topics (topics : list thor.Hash) : list thor.Hash :=
  map (fun topic => topic) topics.

(** The body of the loop over [output.Logs]: reading a field of a nil
    [log] panics. *)
Definition convert_log (log : option Tx.Log) : option ReceiptLog :=
  match log with
  | None => None
  | Some log =>
      Some {| Address := Tx.Address log;
              Data := hexutil.Encode (Tx.LogData log);
              Topics := copy_topics (Tx.Topics log) |}
  end.

(** The body of the loop over [rece.Outputs]: reading [Logs] of a nil
    [output] panics. Slot [j] of a fresh slice of the same length is
    filled from log [j]. *)
Definition convert_output (output : option Tx.Output) : option Output :=
  match output with
  | None => None
  | Some output =>
      match mapM convert_log (Tx.Logs output) with
      | None => None
      | Some logs => Some {| Logs := logs |}
      end
  end.

(** [len] and [range] take the nil slice for the empty one. *)
Definition slice_elements {A : Type} (s : option (list A)) : list A :=
  match s with
  | None => []
  | Some l => l
  end.

(** [ConvertReceipt]: [None] is a panic. *)
Definition ConvertReceipt (rece : Tx.Receipt) : option Receipt :=
  match mapM convert_output (slice_elements (Tx.Outputs rece)) with
  | None => None
  | Some outputs =>
      Some {| GasUsed := Tx.GasUsed rece;
              GasPayer := Tx.GasPayer rece;
              Reverted := Tx.Reverted rece;
              Outputs := outputs |}
  end.

(** No output and no log of the receipt is a nil pointer. *)
Definition no_nil (rece : Tx.Receipt) : Prop :=
  Forall (fun output =>
            match output with
            | None => False
            | Some output => Forall (fun log : option Tx.Log => log <> None) (Tx.Logs output)
            end)
         (slice_elements (Tx.Outputs rece)).

End types.

(** ** A small instance to run the definitions on

    The content of the store is the energy balance of one account and a
    storage cell. A call costs 10 gas, proposes a refund of 8, bumps the
    cell and emits a log; a call that carries a value does the same and
    then reports an error; a creation only reports an error. *)

Module example.

Definition World : Type := (Z * Z)%type.

Definition a_log : vm.Log :=
  {| vm.Address := 5%N; vm.Topics := [11%N; 12%N]; vm.Data := [x01; xab] |}.

Definition run (gas value : Z) (w : World) : vm.Output * World :=
  if gas <? 10 then
    ({| vm.LeftOverGas := 0; vm.RefundGas := 0; vm.Logs := [];
        vm.VMErr := Some "out of gas"%string |}, w)
  else
    ({| vm.LeftOverGas := gas - 10; vm.RefundGas := 8; vm.Logs := [Some a_log];
        vm.VMErr := if value =? 0 then None else Some "reverted"%string |},
     (fst w, snd w + 1)).

#[global] Instance toy_vm : vm.VM World unit := {|
  vm.Create := fun _ _ _ _ gas _ w =>
    ({| vm.LeftOverGas := 0; vm.RefundGas := 0; vm.Logs := [];
        vm.VMErr := Some "no code"%string |}, w);
  vm.Call := fun _ _ _ _ _ gas value w => run gas value w;
  vm.StaticCall := fun _ _ _ _ _ gas w => (fst (run gas 0 w), w);
|}.

#[global] Instance toy_energy : cs.Energy World := {|
  cs.Consume := fun _ origin _ amount w =>
    if amount <=? fst w then ((origin, true), (fst w - amount, snd w))
    else ((thor.Address_zero, false), w);
  cs.GetBalance := fun _ _ w => fst w;
  cs.SetBalance := fun _ _ v w => (v, snd w);
|}.

Definition rt : runtime.Runtime unit :=
  {| runtime.vmConfig := tt; runtime.getBlockID := fun _ => 0%N;
     runtime.blockBeneficiary := 1%N; runtime.blockNumber := 3;
     runtime.blockTime := 30; runtime.blockGasLimit := 10000 |}.

Definition call (to : thor.Address) (value : Z) : Tx.Clause :=
  {| Tx.To := Some to; Tx.Value := value; Tx.Data := [] |}.

Definition transaction (clauses : list Tx.Clause) : Tx.Transaction :=
  {| Tx.Signer := inl 7%N; Tx.IntrinsicGas := inl 20; Tx.Gas := 100; Tx.GasPrice := 2;
     Tx.Clauses := clauses; Tx.ID := 99%N |}.

(** Two calls that succeed. *)
Definition tx_ok : Tx.Transaction := transaction [call 5%N 0; call 5%N 0].

(** The second of three calls reports an error. *)
Definition tx_failing : Tx.Transaction := transaction [call 5%N 0; call 6%N 1; call 5%N 0].

(** More gas than the account can pay for. *)
Definition tx_unaffordable : Tx.Transaction :=
  {| Tx.Signer := inl 7%N; Tx.IntrinsicGas := inl 20; Tx.Gas := 1000; Tx.GasPrice := 2;
     Tx.Clauses := [call 5%N 0]; Tx.ID := 98%N |}.

Definition st0 : state.State World := {| state.world := (1000, 0); state.checkpoints := [] |}.

(** What the checks hand over for [tx_ok] and [tx_failing] on [st0]:
    200 energy is taken from account 7. *)
Definition prechecked : @runtime.Prechecked World :=
  {| runtime.origin := 7%N; runtime.intrinsicGas := 20; runtime.energyPayer := 7%N;
     runtime.debited := {| state.world := (800, 0); state.checkpoints := [] |} |}.

(** What [tx_failing] returns on [st0]: the first call uses 10 of the 80
    gas and gets 5 back, the second uses 10 of the 75 and gets 5 back. *)
Definition failing_receipt : Tx.Receipt :=
  {| Tx.GasUsed := 30; Tx.GasPayer := thor.Address_zero; Tx.Reverted := false;
     Tx.Outputs := None |}.

Definition failing_outputs : list (option vm.Output) :=
  [Some {| vm.LeftOverGas := 70; vm.RefundGas := 8; vm.Logs := [Some a_log];
           vm.VMErr := None |};
   Some {| vm.LeftOverGas := 65; vm.RefundGas := 8; vm.Logs := [Some a_log];
           vm.VMErr := Some "reverted"%string |};
   None].

Definition failing_state : state.State World :=
  {| state.world := (940, 0); state.checkpoints := [] |}.

(** A receipt with one output that holds one log. *)
Definition a_receipt : Tx.Receipt :=
  {| Tx.GasUsed := 21000; Tx.GasPayer := 7%N; Tx.Reverted := false;
     Tx.Outputs :=
       Some [Some {| Tx.Logs :=
                       [Some {| Tx.Address := 5%N; Tx.Topics := [11%N; 12%N];
                                Tx.LogData := [x01; xab] |}] |}] |}.

(** A receipt whose only output is a nil pointer. *)
Definition a_receipt_with_nil : Tx.Receipt :=
  {| Tx.GasUsed := 21000; Tx.GasPayer := 7%N; Tx.Reverted := false;
     Tx.Outputs := Some [None] |}.

End example.

(** * Properties *)

(** ** Arithmetic of the gas counters *)

Lemma BigMin_min (x y : Z) : BigMin x y = Z.min x y.
Proof. unfold BigMin. destruct (Z.gtb_spec x y); lia. Qed.

Lemma BigUint64_small (x : Z) : is_uint64 x -> BigUint64 x = x.
Proof.
  unfold BigUint64, is_uint64. intros Hx.
  rewrite Z.abs_eq by lia. apply Z.mod_small. lia.
Qed.

Lemma sub64_small (a b : Z) : 0 <= b <= a -> a < uint64_modulus -> sub64 a b = a - b.
Proof. intros Hb Ha. unfold sub64. apply Z.mod_small. lia. Qed.

Lemma add64_small (a b : Z) : 0 <= a -> 0 <= b -> a + b < uint64_modulus -> add64 a b = a + b.
Proof. intros Ha Hb Hab. unfold add64. apply Z.mod_small. lia. Qed.

Lemma uint64_modulus_pos : 0 < uint64_modulus.
Proof. reflexivity. Qed.

(** The gas left after a clause that was given [before] and left
    [left], with a proposed refund [refund]: no counter wraps, and the
    result is between [left] and [before]. *)
Lemma refund_within (before left refund : Z) :
  is_uint64 before -> 0 <= left <= before -> 0 <= refund ->
  add64 left (BigUint64 (BigMin refund (sub64 before left / 2)))
    = left + Z.min refund ((before - left) / 2) /\
  left <= left + Z.min refund ((before - left) / 2) <= before.
Proof.
  intros Hb Hl Hr. unfold is_uint64 in Hb.
  rewrite sub64_small by lia. rewrite BigMin_min.
  assert (Hhalf : 0 <= (before - left) / 2 <= before - left).
  { split; [apply Z.div_pos; lia|]. apply Z.div_le_upper_bound; lia. }
  rewrite BigUint64_small by (unfold is_uint64; lia).
  rewrite add64_small by lia. lia.
Qed.

(** ** The common recipient *)

Lemma commonTo_rest_all (A : thor.Address) (rest : list Tx.Clause) :
  Forall (fun c => Tx.To c = Some A) rest -> runtime.commonTo_rest A rest = A.
Proof.
  induction 1 as [|c rest Hc _ IH]; simpl; [reflexivity|].
  rewrite Hc. rewrite bool_decide_eq_false_2; [exact IH|]. intros Hne. now apply Hne.
Qed.

Lemma commonTo_rest_zero (A : thor.Address) (rest : list Tx.Clause) :
  Exists (fun c => Tx.To c <> Some A) rest -> runtime.commonTo_rest A rest = thor.Address_zero.
Proof.
  induction 1 as [c rest Hc|c rest _ IH]; simpl.
  - destruct (Tx.To c) as [to|]; [|reflexivity].
    rewrite bool_decide_eq_true_2; [reflexivity|]. congruence.
  - destruct (Tx.To c) as [to|]; [|reflexivity].
    destruct (bool_decide (to <> A)); [reflexivity|exact IH].
Qed.

Example commonTo_same :
  runtime.commonTo [example.call 5%N 0; example.call 5%N 1] = 5%N.
Proof. reflexivity. Qed.

Example commonTo_different :
  runtime.commonTo [example.call 5%N 0; example.call 6%N 0] = thor.Address_zero.
Proof. reflexivity. Qed.

Example commonTo_creation :
  runtime.commonTo [example.call 5%N 0; {| Tx.To := None; Tx.Value := 0; Tx.Data := [] |}]
  = thor.Address_zero.
Proof. reflexivity. Qed.

(** C7. [runtime.commonTo] returns the shared recipient when every clause of a
    non-empty list has that same recipient, and the empty address when
    the list is empty, when some clause has no recipient, or when two
    clauses have different recipients. *)
Theorem commonTo_spec (clauses : list Tx.Clause) :
  (forall A, clauses <> [] -> Forall (fun c => Tx.To c = Some A) clauses ->
             runtime.commonTo clauses = A) /\
  (clauses = [] -> runtime.commonTo clauses = thor.Address_zero) /\
  (Exists (fun c => Tx.To c = None) clauses -> runtime.commonTo clauses = thor.Address_zero) /\
  (forall c1 c2 a b, c1 ∈ clauses -> c2 ∈ clauses ->
     Tx.To c1 = Some a -> Tx.To c2 = Some b -> a <> b ->
     runtime.commonTo clauses = thor.Address_zero).
Proof.
  split; [|split; [|split]].
  - intros A Hne Hall. destruct clauses as [|c0 rest]; [congruence|].
    inversion Hall as [|? ? H0 Hrest]; subst. simpl. rewrite H0.
    now apply commonTo_rest_all.
  - intros ->. reflexivity.
  - intros Hex. destruct clauses as [|c0 rest]; [reflexivity|]. simpl.
    destruct (Tx.To c0) as [firstTo|] eqn:H0; [|reflexivity].
    apply commonTo_rest_zero. inversion Hex as [? ? Hc|? ? Hr]; subst; [congruence|].
    eapply Exists_impl; [exact Hr|]. simpl. intros c Hc. congruence.
  - intros c1 c2 a b H1 H2 Ha Hb Hab.
    destruct clauses as [|c0 rest]; [reflexivity|]. simpl.
    destruct (Tx.To c0) as [firstTo|] eqn:H0; [|reflexivity].
    apply commonTo_rest_zero.
    assert (Hdiff : forall c x, c ∈ c0 :: rest -> Tx.To c = Some x -> x <> firstTo ->
                                 Exists (fun c => Tx.To c <> Some firstTo) rest).
    { intros c x Hin Hx Hne. apply elem_of_cons in Hin as [->|Hin]; [congruence|].
      apply Exists_exists. exists c. split; [exact Hin|congruence]. }
    destruct (decide (a = firstTo)) as [->|Ha'].
    + apply (Hdiff c2 b); auto.
    + apply (Hdiff c1 a); auto.
Qed.


(** ** The clause loop *)

Section ExecutionFacts.
Context {World Config : Type} `{!vm.VM World Config} `{!cs.Energy World}.
Implicit Types (rt : runtime.Runtime Config) (tx : Tx.Transaction) (clause : Tx.Clause).
Implicit Types (s : state.State World) (p : @runtime.Prechecked World).
Implicit Types (ls : @runtime.LoopState World).

Lemma fold_left_snoc {A B : Type} (f : A -> B) (l : list A) (acc : list B) :
  fold_left (fun logs x => logs ++ [f x]) l acc = acc ++ map f l.
Proof.
  revert acc. induction l as [|x l IH]; intros acc; simpl.
  - now rewrite app_nil_r.
  - rewrite IH. now rewrite <- app_assoc.
Qed.

Lemma slice_store_in_range {A : Type} (l : list A) (i : nat) (x : A) :
  (i < length l)%nat -> runtime.slice_store l i x = Some (<[i:=x]> l).
Proof. intros Hi. unfold runtime.slice_store. now rewrite decide_True. Qed.

(** A call that is not static does not panic; the interpreter runs on
    the content and leaves the open checkpoints alone. *)
Lemma execute_nonstatic rt clause i gas txOrigin gasPrice txID s :
  exists out w,
    runtime.execute rt clause i gas txOrigin gasPrice txID false s
      = Some (out, {| state.world := w; state.checkpoints := state.checkpoints s |}) /\
    (vm.gas_sound -> is_uint64 gas -> vm.gas_bounded gas out).
Proof.
  unfold runtime.execute, state.on_world. simpl.
  destruct (Tx.To clause) as [to|].
  - match goal with |- context [vm.Call ?c ?g ?o ?t ?d ?gs ?v ?w] =>
      destruct (vm.Call c g o t d gs v w) as [out w'] eqn:E end.
    exists out, w'. split; [reflexivity|]. intros Hs Hg.
    match type of E with vm.Call ?c ?g ?o ?t ?d ?gs ?v ?w = _ =>
      destruct (Hs c g o d gs v w Hg) as [_ Hc]; specialize (Hc t); now rewrite E in Hc end.
  - match goal with |- context [vm.Create ?c ?g ?o ?d ?gs ?v ?w] =>
      destruct (vm.Create c g o d gs v w) as [out w'] eqn:E end.
    exists out, w'. split; [reflexivity|]. intros Hs Hg.
    match type of E with vm.Create ?c ?g ?o ?d ?gs ?v ?w = _ =>
      destruct (Hs c g o d gs v w Hg) as [Hc _]; now rewrite E in Hc end.
Qed.

(** One turn of the loop, when the index is within both slices. *)
Lemma clause_body_run rt tx p cp i clause ls outputs :
  (i < length (runtime.vmOutputs ls))%nat ->
  Tx.Outputs (runtime.receipt ls) = Some outputs ->
  (i < length outputs)%nat ->
  exists out s',
    runtime.execute rt clause i (runtime.leftOverGas ls) (runtime.origin p)
                    (Tx.GasPrice tx) (Tx.ID tx) false (runtime.st ls) = Some (out, s') /\
    state.checkpoints s' = state.checkpoints (runtime.st ls) /\
    (vm.gas_sound -> is_uint64 (runtime.leftOverGas ls) ->
     vm.gas_bounded (runtime.leftOverGas ls) out) /\
    runtime.clause_body rt tx p cp i clause ls =
      Some
        match vm.VMErr out with
        | Some _ =>
            (runtime.Break,
             {| runtime.leftOverGas := runtime.gas_after (runtime.leftOverGas ls) out;
                runtime.receipt :=
                  {| Tx.GasUsed := Tx.GasUsed (runtime.receipt ls);
                     Tx.GasPayer := Tx.GasPayer (runtime.receipt ls);
                     Tx.Reverted := Tx.Reverted (runtime.receipt ls);
                     Tx.Outputs := None |};
                runtime.vmOutputs := <[i:=Some out]> (runtime.vmOutputs ls);
                runtime.st := state.RevertTo cp s' |})
        | None =>
            (runtime.Next,
             {| runtime.leftOverGas := runtime.gas_after (runtime.leftOverGas ls) out;
                runtime.receipt :=
                  {| Tx.GasUsed := Tx.GasUsed (runtime.receipt ls);
                     Tx.GasPayer := Tx.GasPayer (runtime.receipt ls);
                     Tx.Reverted := Tx.Reverted (runtime.receipt ls);
                     Tx.Outputs :=
                       Some (<[i:=Some {| Tx.Logs := map Tx.Log_of_vm (vm.Logs out) |}]> outputs) |};
                runtime.vmOutputs := <[i:=Some out]> (runtime.vmOutputs ls);
                runtime.st := s' |})
        end.
Proof.
  intros Hi Hout Hi'.
  destruct (execute_nonstatic rt clause i (runtime.leftOverGas ls) (runtime.origin p)
              (Tx.GasPrice tx) (Tx.ID tx) (runtime.st ls)) as (out & w & Hex & Hgas).
  eexists out, _. split; [exact Hex|]. split; [reflexivity|]. split; [exact Hgas|].
  unfold runtime.clause_body. rewrite Hex.
  rewrite slice_store_in_range by exact Hi.
  destruct (vm.VMErr out) as [e|]; [reflexivity|].
  rewrite Hout. rewrite slice_store_in_range by exact Hi'.
  rewrite fold_left_snoc. reflexivity.
Qed.

(** What passing the checks means. *)
Lemma precheck_pass rt tx s p :
  runtime.precheck rt tx s = inl p ->
  Tx.Signer tx = inl (runtime.origin p) /\
  Tx.IntrinsicGas tx = inl (runtime.intrinsicGas p) /\
  runtime.intrinsicGas p <= Tx.Gas tx /\
  cs.Consume (runtime.blockTime rt) (runtime.origin p) (runtime.commonTo (Tx.Clauses tx))
             (Tx.Gas tx * Tx.GasPrice tx) (state.world s)
    = ((runtime.energyPayer p, true), state.world (runtime.debited p)) /\
  state.checkpoints (runtime.debited p) = state.checkpoints s.
Proof.
  unfold runtime.precheck, state.on_world.
  destruct (Tx.Signer tx) as [o|e]; [|discriminate].
  destruct (Tx.IntrinsicGas tx) as [g|e]; [|discriminate].
  destruct (Z.gtb_spec g (Tx.Gas tx)) as [Hgt|Hle]; [discriminate|].
  destruct (cs.Consume _ _ _ _ _) as [[payer ok] w] eqn:Hc.
  destruct ok; simpl; [|discriminate].
  intros [= <-]. simpl. rewrite Hc. repeat split; auto.
Qed.

Lemma enter_loop_eq tx p :
  runtime.enter_loop tx p =
  (length (state.checkpoints (runtime.debited p)),
   {| runtime.leftOverGas := sub64 (Tx.Gas tx) (runtime.intrinsicGas p);
      runtime.receipt :=
        {| Tx.GasUsed := 0; Tx.GasPayer := thor.Address_zero; Tx.Reverted := false;
           Tx.Outputs := Some (replicate (length (Tx.Clauses tx)) None) |};
      runtime.vmOutputs := replicate (length (Tx.Clauses tx)) None;
      runtime.st :=
        {| state.world := state.world (runtime.debited p);
           state.checkpoints :=
             state.checkpoints (runtime.debited p) ++ [state.world (runtime.debited p)] |} |}).
Proof. reflexivity. Qed.

Lemma enter_invariant tx p : runtime.loop_invariant tx p 0 (snd (runtime.enter_loop tx p)).
Proof.
  rewrite enter_loop_eq. unfold runtime.loop_invariant. simpl.
  split; [apply length_replicate|].
  split; [intros j Hj; lia|].
  split; [intros j Hj; apply lookup_replicate_2; lia|].
  split; [|reflexivity].
  eexists. split; [reflexivity|]. split; [apply length_replicate|]. intros j Hj; lia.
Qed.

(** A turn that does not break keeps the invariant, at the next index. *)
Lemma body_invariant rt tx p cp i clause ls ls' :
  runtime.loop_invariant tx p i ls ->
  (i < length (Tx.Clauses tx))%nat ->
  runtime.clause_body rt tx p cp i clause ls = Some (runtime.Next, ls') ->
  runtime.loop_invariant tx p (S i) ls'.
Proof.
  intros (Hlen & Hdone & Htodo & (outputs & Hout & Hlo & Hfilled) & Hcp) Hi Hbody.
  destruct (clause_body_run rt tx p cp i clause ls outputs) as (out & s' & _ & Hcps & _ & Heq);
    [lia|exact Hout|lia|].
  rewrite Heq in Hbody. destruct (vm.VMErr out) as [e|] eqn:Herr; [discriminate|].
  injection Hbody as <-. unfold runtime.loop_invariant. simpl.
  split; [now rewrite length_insert|].
  split.
  { intros j Hj. destruct (decide (j = i)) as [->|Hne].
    - exists out. split; [|exact Herr]. apply list_lookup_insert_eq. lia.
    - rewrite list_lookup_insert_ne by congruence. apply Hdone. lia. }
  split.
  { intros j Hj. rewrite list_lookup_insert_ne by lia. apply Htodo. lia. }
  split; [|congruence].
  eexists. split; [reflexivity|]. split; [now rewrite length_insert|].
  intros j Hj. destruct (decide (j = i)) as [->|Hne].
  - eexists. apply list_lookup_insert_eq. lia.
  - rewrite list_lookup_insert_ne by congruence. apply Hfilled. lia.
Qed.

Lemma at_head_invariant rt tx p i ls :
  runtime.at_head rt tx p i ls ->
  runtime.loop_invariant tx p i ls /\ (i <= length (Tx.Clauses tx))%nat.
Proof.
  induction 1 as [|i clause ls ls' _ [IH _] Hc Hbody].
  - split; [apply enter_invariant|lia].
  - apply lookup_lt_Some in Hc. split; [|lia].
    eapply body_invariant; eauto.
Qed.

(** The loop head is reached with one state only. *)
Lemma at_head_unique rt tx p i ls1 ls2 :
  runtime.at_head rt tx p i ls1 -> runtime.at_head rt tx p i ls2 -> ls1 = ls2.
Proof.
  intros H1. revert ls2. induction H1 as [|i clause ls ls' _ IH Hc Hbody]; intros ls2 H2.
  - now inversion H2.
  - inversion H2 as [|i' clause2 lsp ls2' Hp Hc2 Hbody2]; subst.
    specialize (IH _ Hp). subst lsp. congruence.
Qed.

(** Reaching a later index means that every earlier turn went on. *)
Lemma at_head_earlier rt tx p j ls :
  runtime.at_head rt tx p j ls ->
  forall k, (k < j)%nat ->
  exists lsk clause lsk',
    runtime.at_head rt tx p k lsk /\ Tx.Clauses tx !! k = Some clause /\
    runtime.clause_body rt tx p (fst (runtime.enter_loop tx p)) k clause lsk
      = Some (runtime.Next, lsk').
Proof.
  induction 1 as [|i clause ls ls' Hat IH Hc Hbody]; intros k Hk; [lia|].
  destruct (decide (k = i)) as [->|Hne].
  - exists ls, clause, ls'. auto.
  - apply IH. lia.
Qed.

(** From a loop head the loop does not panic; it ends at the head after
    the last clause, or with the break of some turn. *)
Lemma clause_loop_outcome rt tx p m :
  forall i ls,
  runtime.at_head rt tx p i ls ->
  (i + m = length (Tx.Clauses tx))%nat ->
  exists lsf,
    runtime.clause_loop rt tx p (fst (runtime.enter_loop tx p)) i (drop i (Tx.Clauses tx)) ls
      = Some lsf /\
    (runtime.at_head rt tx p (length (Tx.Clauses tx)) lsf \/
     exists k lsk clause,
       (i <= k)%nat /\ runtime.at_head rt tx p k lsk /\ Tx.Clauses tx !! k = Some clause /\
       runtime.clause_body rt tx p (fst (runtime.enter_loop tx p)) k clause lsk
         = Some (runtime.Break, lsf)).
Proof.
  induction m as [|m IH]; intros i ls Hat Him.
  - rewrite drop_ge by lia. simpl. exists ls. split; [reflexivity|].
    left. now replace (length (Tx.Clauses tx)) with i by lia.
  - destruct (lookup_lt_is_Some_2 (Tx.Clauses tx) i) as [clause Hc]; [lia|].
    rewrite (drop_S _ _ _ Hc). cbn [runtime.clause_loop].
    destruct (at_head_invariant _ _ _ _ _ Hat)
      as [(Hlen & _ & _ & (outputs & Hout & Hlo & _) & _) _].
    destruct (clause_body_run rt tx p (fst (runtime.enter_loop tx p)) i clause ls outputs)
      as (out & s' & _ & _ & _ & Heq); [lia|exact Hout|lia|].
    rewrite Heq. destruct (vm.VMErr out) as [e|] eqn:Herr.
    + eexists. split; [reflexivity|]. right. exists i, ls, clause.
      rewrite Heq. auto.
    + match goal with |- context [runtime.clause_loop _ _ _ _ (S i) _ ?l] => set (ls' := l) in * end.
      assert (Hat' : runtime.at_head rt tx p (S i) ls').
      { eapply runtime.at_head_next; eauto. }
      destruct (IH (S i) ls' Hat') as (lsf & Hloop & Hend); [lia|].
      exists lsf. split; [exact Hloop|].
      destruct Hend as [Hend|(k & lsk & c & Hk & Hrest)]; [now left|].
      right. exists k, lsk, c. split; [lia|exact Hrest].
Qed.

(** The loop from a loop head is the loop from its entry. *)
Lemma at_head_loop rt tx p i ls :
  runtime.at_head rt tx p i ls ->
  runtime.clause_loop rt tx p (fst (runtime.enter_loop tx p)) i (drop i (Tx.Clauses tx)) ls
  = runtime.clause_loop rt tx p (fst (runtime.enter_loop tx p)) 0 (Tx.Clauses tx)
      (snd (runtime.enter_loop tx p)).
Proof.
  induction 1 as [|i clause ls ls' _ IH Hc Hbody]; [reflexivity|].
  rewrite <- IH. rewrite (drop_S _ _ _ Hc). cbn [runtime.clause_loop].
  now rewrite Hbody.
Qed.

(** A turn that breaks ends the loop with the state it leaves. *)
Lemma loop_break_at rt tx p k ls clause lsb :
  runtime.at_head rt tx p k ls ->
  Tx.Clauses tx !! k = Some clause ->
  runtime.clause_body rt tx p (fst (runtime.enter_loop tx p)) k clause ls
    = Some (runtime.Break, lsb) ->
  runtime.clause_loop rt tx p (fst (runtime.enter_loop tx p)) 0 (Tx.Clauses tx)
    (snd (runtime.enter_loop tx p)) = Some lsb.
Proof.
  intros Hat Hc Hbody. rewrite <- (at_head_loop _ _ _ _ _ Hat).
  rewrite (drop_S _ _ _ Hc). cbn [runtime.clause_loop]. now rewrite Hbody.
Qed.

(** After a turn that breaks no later loop head is reached. *)
Lemma no_head_after_break rt tx p k ls clause lsb j lsj :
  runtime.at_head rt tx p k ls ->
  Tx.Clauses tx !! k = Some clause ->
  runtime.clause_body rt tx p (fst (runtime.enter_loop tx p)) k clause ls
    = Some (runtime.Break, lsb) ->
  (k < j)%nat -> ~ runtime.at_head rt tx p j lsj.
Proof.
  intros Hat Hc Hbody Hkj Hj.
  destruct (at_head_earlier _ _ _ _ _ Hj k Hkj) as (lsk & c & lsk' & Hk & Hck & Hnext).
  rewrite (at_head_unique _ _ _ _ _ _ Hk Hat) in Hnext. congruence.
Qed.

Lemma ExecuteTransaction_pass rt tx s p lsf :
  runtime.precheck rt tx s = inl p ->
  runtime.clause_loop rt tx p (fst (runtime.enter_loop tx p)) 0 (Tx.Clauses tx)
    (snd (runtime.enter_loop tx p)) = Some lsf ->
  runtime.ExecuteTransaction rt tx s = Some (runtime.settle rt tx p lsf).
Proof.
  intros Hp Hl. unfold runtime.ExecuteTransaction. rewrite Hp.
  destruct (runtime.enter_loop tx p) as [cp ls0]. simpl in Hl. now rewrite Hl.
Qed.

Lemma settle_eq rt tx p ls :
  runtime.settle rt tx p ls =
  ((Some {| Tx.GasUsed := sub64 (Tx.Gas tx) (runtime.leftOverGas ls);
            Tx.GasPayer := Tx.GasPayer (runtime.receipt ls);
            Tx.Reverted := Tx.Reverted (runtime.receipt ls);
            Tx.Outputs := Tx.Outputs (runtime.receipt ls) |},
    Some (runtime.vmOutputs ls), None),
   {| state.world :=
        cs.SetBalance (runtime.blockTime rt) (runtime.energyPayer p)
          (cs.GetBalance (runtime.blockTime rt) (runtime.energyPayer p)
                         (state.world (runtime.st ls))
           + runtime.leftOverGas ls * Tx.GasPrice tx)
          (state.world (runtime.st ls));
      state.checkpoints := state.checkpoints (runtime.st ls) |}).
Proof. reflexivity. Qed.

(** The whole loop, from its entry. *)
Lemma loop_outcome rt tx p :
  exists lsf,
    runtime.clause_loop rt tx p (fst (runtime.enter_loop tx p)) 0 (Tx.Clauses tx)
      (snd (runtime.enter_loop tx p)) = Some lsf /\
    (runtime.at_head rt tx p (length (Tx.Clauses tx)) lsf \/
     exists k lsk clause,
       runtime.at_head rt tx p k lsk /\ Tx.Clauses tx !! k = Some clause /\
       runtime.clause_body rt tx p (fst (runtime.enter_loop tx p)) k clause lsk
         = Some (runtime.Break, lsf)).
Proof.
  destruct (clause_loop_outcome rt tx p (length (Tx.Clauses tx)) 0 _ (runtime.at_head_enter rt tx p))
    as (lsf & Hloop & Hend); [lia|].
  exists lsf. split; [exact Hloop|].
  destruct Hend as [Hend|(k & lsk & c & _ & Hrest)]; [now left|].
  right. now exists k, lsk, c.
Qed.

(** ** Gas accounting *)

(** Under the interpreter's promise a turn leaves no more gas than it
    was given. *)
Lemma body_gas rt tx p cp i clause ls ctl ls' :
  runtime.loop_invariant tx p i ls ->
  (i < length (Tx.Clauses tx))%nat ->
  vm.gas_sound ->
  is_uint64 (runtime.leftOverGas ls) ->
  runtime.clause_body rt tx p cp i clause ls = Some (ctl, ls') ->
  0 <= runtime.leftOverGas ls' <= runtime.leftOverGas ls.
Proof.
  intros (Hlen & _ & _ & (outputs & Hout & Hlo & _) & _) Hi Hsound Hrange Hbody.
  destruct (clause_body_run rt tx p cp i clause ls outputs) as (out & s' & _ & _ & Hgas & Heq);
    [lia|exact Hout|lia|].
  destruct (Hgas Hsound Hrange) as [Hleft Hrefund].
  destruct (refund_within (runtime.leftOverGas ls) (vm.LeftOverGas out) (vm.RefundGas out))
    as [Hafter Hbounds]; auto.
  rewrite Heq in Hbody.
  assert (Hl : runtime.leftOverGas ls' = runtime.gas_after (runtime.leftOverGas ls) out).
  { destruct (vm.VMErr out); injection Hbody as _ <-; reflexivity. }
  rewrite Hl. unfold runtime.gas_after. rewrite Hafter. lia.
Qed.

Lemma at_head_gas rt tx p i ls :
  vm.gas_sound -> is_uint64 (Tx.Gas tx) ->
  0 <= runtime.intrinsicGas p <= Tx.Gas tx ->
  runtime.at_head rt tx p i ls ->
  0 <= runtime.leftOverGas ls <= Tx.Gas tx - runtime.intrinsicGas p.
Proof.
  intros Hsound Hgas Hig. unfold is_uint64 in Hgas.
  induction 1 as [|i clause ls ls' Hat IH Hc Hbody].
  - rewrite enter_loop_eq. simpl. rewrite sub64_small by lia. lia.
  - destruct (at_head_invariant _ _ _ _ _ Hat) as [Hinv _].
    apply lookup_lt_Some in Hc.
    pose proof (fun Hr => body_gas _ _ _ _ _ _ _ _ _ Hinv Hc Hsound Hr Hbody) as Hb.
    specialize (Hb ltac:(unfold is_uint64; lia)). lia.
Qed.

Lemma loop_gas rt tx p lsf :
  vm.gas_sound -> is_uint64 (Tx.Gas tx) ->
  0 <= runtime.intrinsicGas p <= Tx.Gas tx ->
  runtime.clause_loop rt tx p (fst (runtime.enter_loop tx p)) 0 (Tx.Clauses tx)
    (snd (runtime.enter_loop tx p)) = Some lsf ->
  0 <= runtime.leftOverGas lsf <= Tx.Gas tx - runtime.intrinsicGas p.
Proof.
  intros Hsound Hgas Hig Hloop.
  destruct (loop_outcome rt tx p) as (lsf' & Hloop' & Hend).
  rewrite Hloop in Hloop'. injection Hloop' as <-.
  destruct Hend as [Hend|(k & lsk & c & Hk & Hc & Hbody)].
  - eapply at_head_gas; eauto.
  - pose proof (at_head_gas _ _ _ _ _ Hsound Hgas Hig Hk) as Hlk.
    destruct (at_head_invariant _ _ _ _ _ Hk) as [Hinv _].
    apply lookup_lt_Some in Hc.
    pose proof (fun Hr => body_gas _ _ _ _ _ _ _ _ _ Hinv Hc Hsound Hr Hbody) as Hb.
    unfold is_uint64 in Hgas.
    specialize (Hb ltac:(unfold is_uint64; lia)). lia.
Qed.

(** C3. For a transaction that passes the checks before execution, the
    receipt's gas used is the gas limit minus the gas left after the
    loop, and lies between 0 and the gas limit, given that the
    interpreter leaves at most the gas it is supplied and proposes
    refunds that are amounts. *)
Theorem gas_conservation rt tx s p :
  vm.gas_sound -> Tx.gas_in_range tx ->
  runtime.precheck rt tx s = inl p ->
  exists lsf rcpt outs s',
    runtime.clause_loop rt tx p (fst (runtime.enter_loop tx p)) 0 (Tx.Clauses tx)
      (snd (runtime.enter_loop tx p)) = Some lsf /\
    runtime.ExecuteTransaction rt tx s = Some ((Some rcpt, Some outs, None), s') /\
    Tx.GasUsed rcpt = Tx.Gas tx - runtime.leftOverGas lsf /\
    0 <= Tx.GasUsed rcpt <= Tx.Gas tx.
Proof.
  intros Hsound [Hgas Hig] Hp.
  destruct (precheck_pass _ _ _ _ Hp) as (_ & Hi & Hle & _).
  specialize (Hig _ Hi).
  destruct (loop_outcome rt tx p) as (lsf & Hloop & _).
  pose proof (loop_gas rt tx p lsf Hsound Hgas ltac:(unfold is_uint64 in Hig; lia) Hloop) as Hl.
  exists lsf. rewrite (ExecuteTransaction_pass _ _ _ _ _ Hp Hloop), settle_eq.
  do 3 eexists. split; [exact Hloop|]. split; [reflexivity|]. simpl.
  unfold is_uint64 in Hgas, Hig. rewrite sub64_small by lia. lia.
Qed.

(** C5. For every clause executed, the gas left after it is the gas the
    interpreter reports plus the smaller of the refund it proposes and
    half (rounded down) of the gas used, the gas used being the gas left
    before minus the gas reported; the refund proposed is an amount. *)
Theorem refund_cap rt tx s p k ls clause out :
  runtime.precheck rt tx s = inl p ->
  runtime.at_head rt tx p k ls ->
  Tx.Clauses tx !! k = Some clause ->
  runtime.vm_output rt tx p k clause ls = Some out ->
  0 <= vm.RefundGas out ->
  exists ctl ls',
    runtime.clause_body rt tx p (fst (runtime.enter_loop tx p)) k clause ls = Some (ctl, ls') /\
    let gasUsed := sub64 (runtime.leftOverGas ls) (vm.LeftOverGas out) in
    let refund := Z.min (vm.RefundGas out) (gasUsed / 2) in
    runtime.leftOverGas ls' = add64 (vm.LeftOverGas out) refund /\
    refund <= gasUsed / 2 /\
    (is_uint64 (runtime.leftOverGas ls) ->
     0 <= vm.LeftOverGas out <= runtime.leftOverGas ls ->
     runtime.leftOverGas ls'
       = vm.LeftOverGas out
         + Z.min (vm.RefundGas out) ((runtime.leftOverGas ls - vm.LeftOverGas out) / 2)).
Proof.
  intros _ Hat Hc Hout Hrefund.
  destruct (at_head_invariant _ _ _ _ _ Hat) as [(Hlen & _ & _ & (outputs & Ho & Hlo & _) & _) _].
  apply lookup_lt_Some in Hc.
  destruct (clause_body_run rt tx p (fst (runtime.enter_loop tx p)) k clause ls outputs)
    as (out' & s' & Hex & _ & _ & Heq); [lia|exact Ho|lia|].
  unfold runtime.vm_output in Hout. rewrite Hex in Hout. injection Hout as ->.
  assert (Hl : exists ctl ls',
             runtime.clause_body rt tx p (fst (runtime.enter_loop tx p)) k clause ls
               = Some (ctl, ls') /\
             runtime.leftOverGas ls' = runtime.gas_after (runtime.leftOverGas ls) out).
  { rewrite Heq. destruct (vm.VMErr out); do 2 eexists; split; reflexivity. }
  destruct Hl as (ctl & ls' & Hbody & Hl). exists ctl, ls'. split; [exact Hbody|].
  cbv zeta. rewrite Hl. unfold runtime.gas_after. rewrite BigMin_min.
  assert (Hused : 0 <= sub64 (runtime.leftOverGas ls) (vm.LeftOverGas out) < uint64_modulus).
  { unfold sub64. apply Z.mod_pos_bound. apply uint64_modulus_pos. }
  assert (Hhalf : 0 <= sub64 (runtime.leftOverGas ls) (vm.LeftOverGas out) / 2 < uint64_modulus).
  { split; [apply Z.div_pos; lia|]. apply Z.div_lt_upper_bound; lia. }
  rewrite BigUint64_small by (unfold is_uint64; lia).
  split; [reflexivity|]. split; [lia|].
  intros Hrange Hleft. unfold is_uint64 in Hrange.
  rewrite sub64_small in * by lia.
  assert (Hle : (runtime.leftOverGas ls - vm.LeftOverGas out) / 2
                <= runtime.leftOverGas ls - vm.LeftOverGas out).
  { apply Z.div_le_upper_bound; lia. }
  rewrite add64_small; lia.
Qed.

(** ** Rollback *)

(** Reverting to the checkpoint taken on entry gives back the state the
    loop was entered from. *)
Lemma revert_to_entry p s' :
  state.checkpoints s'
    = state.checkpoints (runtime.debited p) ++ [state.world (runtime.debited p)] ->
  state.RevertTo (length (state.checkpoints (runtime.debited p))) s' = runtime.debited p.
Proof.
  intros Hcp. unfold state.RevertTo. rewrite Hcp.
  rewrite list_lookup_middle by reflexivity. rewrite take_app_length.
  now destruct (runtime.debited p).
Qed.

(** A turn whose clause reports an error breaks, with the state reverted
    to the one the loop was entered from. *)
Lemma body_failure rt tx p k ls clause out e :
  runtime.at_head rt tx p k ls ->
  Tx.Clauses tx !! k = Some clause ->
  runtime.vm_output rt tx p k clause ls = Some out ->
  vm.VMErr out = Some e ->
  runtime.clause_body rt tx p (fst (runtime.enter_loop tx p)) k clause ls =
    Some (runtime.Break,
          {| runtime.leftOverGas := runtime.gas_after (runtime.leftOverGas ls) out;
             runtime.receipt :=
               {| Tx.GasUsed := Tx.GasUsed (runtime.receipt ls);
                  Tx.GasPayer := Tx.GasPayer (runtime.receipt ls);
                  Tx.Reverted := Tx.Reverted (runtime.receipt ls);
                  Tx.Outputs := None |};
             runtime.vmOutputs := <[k:=Some out]> (runtime.vmOutputs ls);
             runtime.st := runtime.debited p |}).
Proof.
  intros Hat Hc Hout Herr.
  destruct (at_head_invariant _ _ _ _ _ Hat)
    as [(Hlen & _ & _ & (outputs & Ho & Hlo & _) & Hcp) _].
  apply lookup_lt_Some in Hc.
  destruct (clause_body_run rt tx p (fst (runtime.enter_loop tx p)) k clause ls outputs)
    as (out' & s' & Hex & Hcps & _ & Heq); [lia|exact Ho|lia|].
  unfold runtime.vm_output in Hout. rewrite Hex in Hout. injection Hout as ->.
  rewrite Heq, Herr. rewrite enter_loop_eq. simpl.
  rewrite revert_to_entry by congruence. reflexivity.
Qed.

(** C1. If the execution of clause [k] reports an error, the run ends
    with the receipt's outputs absent and with the content the state had
    when the checkpoint was taken, changed only by the energy paid back
    to the payer; the checkpoint is closed, and no clause after [k] is
    executed. *)
Theorem atomic_rollback rt tx s p k ls clause out e :
  runtime.precheck rt tx s = inl p ->
  runtime.at_head rt tx p k ls ->
  Tx.Clauses tx !! k = Some clause ->
  runtime.vm_output rt tx p k clause ls = Some out ->
  vm.VMErr out = Some e ->
  exists rcpt outs s',
    runtime.ExecuteTransaction rt tx s = Some ((Some rcpt, Some outs, None), s') /\
    Tx.Outputs rcpt = None /\
    (let w := state.world (runtime.debited p) in
     let payer := runtime.energyPayer p in
     state.world s' =
       cs.SetBalance (runtime.blockTime rt) payer
         (cs.GetBalance (runtime.blockTime rt) payer w
          + runtime.gas_after (runtime.leftOverGas ls) out * Tx.GasPrice tx) w) /\
    state.checkpoints s' = state.checkpoints s /\
    forall j, (k < j)%nat -> ~ runtime.executed rt tx p j.
Proof.
  intros Hp Hat Hc Hout Herr.
  pose proof (body_failure _ _ _ _ _ _ _ _ Hat Hc Hout Herr) as Hbody.
  pose proof (loop_break_at _ _ _ _ _ _ _ Hat Hc Hbody) as Hloop.
  rewrite (ExecuteTransaction_pass _ _ _ _ _ Hp Hloop), settle_eq. simpl.
  do 3 eexists. split; [reflexivity|]. simpl. split; [reflexivity|]. split; [reflexivity|].
  split; [apply (precheck_pass _ _ _ _ Hp)|].
  intros j Hkj (lsj & Hj & _).
  exact (no_head_after_break _ _ _ _ _ _ _ _ _ Hat Hc Hbody Hkj Hj).
Qed.

(** ** The interpreter's outputs that are returned *)

(** At a loop head the output of every earlier clause is stored. *)
Lemma stored_outputs rt tx p i ls :
  runtime.at_head rt tx p i ls ->
  forall j lsj clause,
    (j < i)%nat -> runtime.at_head rt tx p j lsj -> Tx.Clauses tx !! j = Some clause ->
    exists out, runtime.vm_output rt tx p j clause lsj = Some out /\
                runtime.vmOutputs ls !! j = Some (Some out).
Proof.
  induction 1 as [|i clause ls ls' Hat IH Hc Hbody]; intros j lsj c Hj Hatj Hcj; [lia|].
  destruct (at_head_invariant _ _ _ _ _ Hat) as [(Hlen & _ & _ & (outputs & Ho & Hlo & _) & _) _].
  pose proof (lookup_lt_Some _ _ _ Hc) as Hi.
  destruct (clause_body_run rt tx p (fst (runtime.enter_loop tx p)) i clause ls outputs)
    as (out & s' & Hex & _ & _ & Heq); [lia|exact Ho|lia|].
  rewrite Heq in Hbody. destruct (vm.VMErr out); [discriminate|].
  injection Hbody as <-. simpl.
  destruct (decide (j = i)) as [->|Hne].
  - rewrite (at_head_unique _ _ _ _ _ _ Hatj Hat). rewrite Hcj in Hc. injection Hc as ->.
    exists out. split; [unfold runtime.vm_output; now rewrite Hex|].
    apply list_lookup_insert_eq. lia.
  - rewrite list_lookup_insert_ne by congruence. apply (IH j lsj c); auto. lia.
Qed.

(** C10. When [ExecuteTransaction] returns without error, the slice of
    interpreter outputs has one entry per clause; the entry of every
    clause that was executed is the output of the interpreter for it;
    the entry of a clause that was not executed is nil, and so are the
    entries after a clause that reported an error. *)
Theorem vmOutputs_shape rt tx s rcpt outs s' :
  runtime.ExecuteTransaction rt tx s = Some ((Some rcpt, Some outs, None), s') ->
  exists p,
  runtime.precheck rt tx s = inl p /\
  length outs = length (Tx.Clauses tx) /\
  (forall i ls clause,
     runtime.at_head rt tx p i ls -> Tx.Clauses tx !! i = Some clause ->
     exists out, runtime.vm_output rt tx p i clause ls = Some out /\
                 outs !! i = Some (Some out)) /\
  (forall i, (i < length (Tx.Clauses tx))%nat -> ~ runtime.executed rt tx p i ->
             outs !! i = Some None) /\
  (forall k ls clause out,
     runtime.at_head rt tx p k ls -> Tx.Clauses tx !! k = Some clause ->
     runtime.vm_output rt tx p k clause ls = Some out -> vm.VMErr out <> None ->
     forall j, (k < j < length (Tx.Clauses tx))%nat -> outs !! j = Some None).
Proof.
  intros Hrun.
  destruct (runtime.precheck rt tx s) as [p|[e s1]] eqn:Hp;
    [|unfold runtime.ExecuteTransaction in Hrun; rewrite Hp in Hrun; discriminate].
  exists p. split; [reflexivity|].
  destruct (loop_outcome rt tx p) as (lsf & Hloop & Hend).
  rewrite (ExecuteTransaction_pass _ _ _ _ _ Hp Hloop), settle_eq in Hrun.
  injection Hrun as _ <- _.
  assert (Hnil : forall k ls clause out,
            runtime.at_head rt tx p k ls -> Tx.Clauses tx !! k = Some clause ->
            runtime.vm_output rt tx p k clause ls = Some out -> vm.VMErr out <> None ->
            forall j, (k < j < length (Tx.Clauses tx))%nat ->
            runtime.vmOutputs lsf !! j = Some None).
  { intros k ls clause out Hat Hc Hout Herr j Hj.
    destruct (vm.VMErr out) as [e|] eqn:He; [|congruence].
    pose proof (body_failure _ _ _ _ _ _ _ _ Hat Hc Hout He) as Hbody.
    pose proof (loop_break_at _ _ _ _ _ _ _ Hat Hc Hbody) as Hloop'.
    rewrite Hloop in Hloop'. injection Hloop' as ->. simpl.
    rewrite list_lookup_insert_ne by lia.
    destruct (at_head_invariant _ _ _ _ _ Hat) as [(_ & _ & Htodo & _) _].
    apply Htodo. lia. }
  destruct Hend as [Hend|(k & lsk & c & Hk & Hc & Hbody)].
  - destruct (at_head_invariant _ _ _ _ _ Hend) as [(Hlen & _) _].
    split; [exact Hlen|]. split; [|split; [|exact Hnil]].
    + intros i ls clause Hat Hci.
      apply (stored_outputs _ _ _ _ _ Hend i ls clause); auto.
      now apply lookup_lt_Some in Hci.
    + intros i Hi Hnot. exfalso. apply Hnot.
      destruct (at_head_earlier _ _ _ _ _ Hend i Hi) as (lsi & _ & _ & Hati & _).
      exists lsi. auto.
  - destruct (at_head_invariant _ _ _ _ _ Hk) as [(Hlen & _ & Htodo & (outputs & Ho & Hlo & _) & _) _].
    pose proof (lookup_lt_Some _ _ _ Hc) as Hkn.
    destruct (clause_body_run rt tx p (fst (runtime.enter_loop tx p)) k c lsk outputs)
      as (out & sk & Hex & _ & _ & Heq); [lia|exact Ho|lia|].
    assert (Hout : runtime.vm_output rt tx p k c lsk = Some out).
    { unfold runtime.vm_output. now rewrite Hex. }
    rewrite Heq in Hbody. destruct (vm.VMErr out) as [e|] eqn:He; [|discriminate].
    injection Hbody as <-. simpl in *.
    split; [now rewrite length_insert|]. split; [|split; [|exact Hnil]].
    + intros i ls clause Hat Hci.
      destruct (lt_eq_lt_dec i k) as [[Hlt|Hik]|Hgt].
      * rewrite list_lookup_insert_ne by lia.
        apply (stored_outputs _ _ _ _ _ Hk i ls clause); auto.
      * subst i. rewrite (at_head_unique _ _ _ _ _ _ Hat Hk). rewrite Hci in Hc. injection Hc as ->.
        exists out. split; [exact Hout|]. apply list_lookup_insert_eq. lia.
      * exfalso.
        pose proof (body_failure _ _ _ _ _ _ _ _ Hk Hc Hout He) as Hb.
        exact (no_head_after_break _ _ _ _ _ _ _ _ _ Hk Hc Hb Hgt Hat).
    + intros i Hi Hnot.
      destruct (le_lt_dec i k) as [Hle|Hgt].
      * exfalso. apply Hnot. destruct (le_lt_eq_dec _ _ Hle) as [Hlt|Hik].
        -- destruct (at_head_earlier _ _ _ _ _ Hk i Hlt) as (lsi & _ & _ & Hati & _).
           exists lsi. auto.
        -- subst i. exists lsk. auto.
      * rewrite list_lookup_insert_ne by lia. apply Htodo. lia.
Qed.

(** ** The receipt's flag and payer *)

(** The loop never writes the receipt's [Reverted] and [GasPayer]. *)
Lemma body_flags rt tx p cp i clause ls ctl ls' :
  runtime.clause_body rt tx p cp i clause ls = Some (ctl, ls') ->
  Tx.Reverted (runtime.receipt ls') = Tx.Reverted (runtime.receipt ls) /\
  Tx.GasPayer (runtime.receipt ls') = Tx.GasPayer (runtime.receipt ls).
Proof.
  unfold runtime.clause_body.
  destruct (runtime.execute _ _ _ _ _ _ _ _ _) as [[out s']|]; [|discriminate].
  destruct (runtime.slice_store _ _ _) as [outs|]; [|discriminate].
  destruct (vm.VMErr out).
  - intros [= <- <-]. auto.
  - destruct (Tx.Outputs (runtime.receipt ls)) as [outputs|]; [|discriminate].
    destruct (runtime.slice_store _ _ _) as [outputs'|]; [|discriminate].
    intros [= <- <-]. auto.
Qed.

Lemma at_head_flags rt tx p i ls :
  runtime.at_head rt tx p i ls ->
  Tx.Reverted (runtime.receipt ls) = false /\
  Tx.GasPayer (runtime.receipt ls) = thor.Address_zero.
Proof.
  induction 1 as [|i clause ls ls' _ [IH1 IH2] _ Hbody].
  - rewrite enter_loop_eq. auto.
  - destruct (body_flags _ _ _ _ _ _ _ _ _ Hbody) as [-> ->]. auto.
Qed.

Lemma returned_flags rt tx s rcpt outs err s' :
  runtime.ExecuteTransaction rt tx s = Some ((Some rcpt, outs, err), s') ->
  Tx.Reverted rcpt = false /\ Tx.GasPayer rcpt = thor.Address_zero.
Proof.
  intros Hrun. destruct (runtime.precheck rt tx s) as [p|[e s1]] eqn:Hp.
  - destruct (loop_outcome rt tx p) as (lsf & Hloop & Hend).
    rewrite (ExecuteTransaction_pass _ _ _ _ _ Hp Hloop), settle_eq in Hrun.
    injection Hrun as <- _ _ _. simpl.
    destruct Hend as [Hend|(k & lsk & c & Hk & _ & Hbody)].
    + eapply at_head_flags; eauto.
    + destruct (body_flags _ _ _ _ _ _ _ _ _ Hbody) as [-> ->].
      eapply at_head_flags; eauto.
  - unfold runtime.ExecuteTransaction in Hrun. rewrite Hp in Hrun. discriminate.
Qed.

(** C2. Every receipt [ExecuteTransaction] returns has [Reverted] false,
    also when a clause reported an error: the flag is never set. *)
Theorem receipt_reverted_unset rt tx s rcpt outs err s' :
  runtime.ExecuteTransaction rt tx s = Some ((Some rcpt, outs, err), s') ->
  Tx.Reverted rcpt = false.
Proof. intros Hrun. eapply returned_flags; eauto. Qed.

(** C6. Every receipt [ExecuteTransaction] returns has the empty address
    as [GasPayer], whoever paid: the field is never set. *)
Theorem receipt_gas_payer_unset rt tx s rcpt outs err s' :
  runtime.ExecuteTransaction rt tx s = Some ((Some rcpt, outs, err), s') ->
  Tx.GasPayer rcpt = thor.Address_zero.
Proof. intros Hrun. eapply returned_flags; eauto. Qed.

(** ** Energy *)

(** A turn breaks only when its clause reports an error. *)
Lemma break_is_failure rt tx p k ls clause lsb :
  runtime.at_head rt tx p k ls ->
  Tx.Clauses tx !! k = Some clause ->
  runtime.clause_body rt tx p (fst (runtime.enter_loop tx p)) k clause ls
    = Some (runtime.Break, lsb) ->
  exists out e, runtime.vm_output rt tx p k clause ls = Some out /\ vm.VMErr out = Some e.
Proof.
  intros Hat Hc Hbody.
  destruct (at_head_invariant _ _ _ _ _ Hat) as [(Hlen & _ & _ & (outputs & Ho & Hlo & _) & _) _].
  apply lookup_lt_Some in Hc.
  destruct (clause_body_run rt tx p (fst (runtime.enter_loop tx p)) k clause ls outputs)
    as (out & s' & Hex & _ & _ & Heq); [lia|exact Ho|lia|].
  rewrite Heq in Hbody. destruct (vm.VMErr out) as [e|] eqn:He; [|discriminate].
  exists out, e. split; [|exact He]. unfold runtime.vm_output. now rewrite Hex.
Qed.

(** C4. For a transaction that passes the checks, [Consume] is called
    on the state as found, with the amount gas limit times gas price,
    before the loop; after the loop, reverted or not, the payer it
    named is credited the gas left times the gas price; the difference
    of the two amounts is the gas used times the gas price, and when the
    transaction reverted this is exactly what the payer's balance lost.
    The energy contract is assumed to store balances and to debit the
    payer it names. *)
Theorem energy_conservation rt tx s p :
  vm.gas_sound -> Tx.gas_in_range tx ->
  cs.balance_stored -> cs.consume_debits ->
  runtime.precheck rt tx s = inl p ->
  let blockTime := runtime.blockTime rt in
  let payer := runtime.energyPayer p in
  let gasPrice := Tx.GasPrice tx in
  cs.Consume blockTime (runtime.origin p) (runtime.commonTo (Tx.Clauses tx))
             (Tx.Gas tx * gasPrice) (state.world s)
    = ((payer, true), state.world (runtime.debited p)) /\
  cs.GetBalance blockTime payer (state.world (runtime.debited p))
    = cs.GetBalance blockTime payer (state.world s) - Tx.Gas tx * gasPrice /\
  exists lsf rcpt outs s',
    runtime.clause_loop rt tx p (fst (runtime.enter_loop tx p)) 0 (Tx.Clauses tx)
      (snd (runtime.enter_loop tx p)) = Some lsf /\
    runtime.ExecuteTransaction rt tx s = Some ((Some rcpt, Some outs, None), s') /\
    state.world s' =
      cs.SetBalance blockTime payer
        (cs.GetBalance blockTime payer (state.world (runtime.st lsf))
         + runtime.leftOverGas lsf * gasPrice)
        (state.world (runtime.st lsf)) /\
    cs.GetBalance blockTime payer (state.world s')
      = cs.GetBalance blockTime payer (state.world (runtime.st lsf))
        + runtime.leftOverGas lsf * gasPrice /\
    Tx.Gas tx * gasPrice - runtime.leftOverGas lsf * gasPrice = Tx.GasUsed rcpt * gasPrice /\
    (Tx.Outputs rcpt = None ->
     cs.GetBalance blockTime payer (state.world s')
       = cs.GetBalance blockTime payer (state.world s) - Tx.GasUsed rcpt * gasPrice).
Proof.
  intros Hsound [Hgas Hig] Hstored Hdebits Hp. cbv zeta.
  destruct (precheck_pass _ _ _ _ Hp) as (_ & Hi & Hle & Hconsume & _).
  specialize (Hig _ Hi).
  pose proof (Hdebits _ _ _ _ _ _ _ Hconsume) as Hdebit.
  split; [exact Hconsume|]. split; [exact Hdebit|].
  destruct (loop_outcome rt tx p) as (lsf & Hloop & Hend).
  pose proof (loop_gas rt tx p lsf Hsound Hgas ltac:(unfold is_uint64 in Hig; lia) Hloop) as Hl.
  exists lsf. rewrite (ExecuteTransaction_pass _ _ _ _ _ Hp Hloop), settle_eq.
  do 3 eexists. split; [exact Hloop|]. split; [reflexivity|]. simpl.
  split; [reflexivity|]. split; [apply Hstored|].
  unfold is_uint64 in Hgas, Hig. rewrite sub64_small by lia.
  split; [ring|]. intros Hnone. rewrite Hstored.
  assert (Hst : runtime.st lsf = runtime.debited p).
  { destruct Hend as [Hend|(k & lsk & c & Hk & Hc & Hbody)].
    - destruct (at_head_invariant _ _ _ _ _ Hend) as [(_ & _ & _ & (o & Ho & _) & _) _].
      congruence.
    - destruct (break_is_failure _ _ _ _ _ _ _ Hk Hc Hbody) as (out & e & Hout & He).
      rewrite (body_failure _ _ _ _ _ _ _ _ Hk Hc Hout He) in Hbody.
      now injection Hbody as <-. }
  rewrite Hst, Hdebit. ring.
Qed.

(** ** Rejection before execution *)

(** C8. When the signer cannot be recovered, the intrinsic gas cannot be
    computed, the intrinsic gas exceeds the gas limit, or the energy
    prepayment fails, [ExecuteTransaction] returns the error with a nil
    receipt and nil outputs and leaves the state as it was; the errors
    of the tx package are passed on, the other two have different
    messages, and a receipt is returned only with a nil error. A failed
    [Consume] is assumed to leave the state as it found it. *)
Theorem pre_execution_rejection rt tx s :
  cs.consume_failure_pure ->
  (forall e, Tx.Signer tx = inr e ->
     runtime.ExecuteTransaction rt tx s = Some ((None, None, Some e), s)) /\
  (forall o e, Tx.Signer tx = inl o -> Tx.IntrinsicGas tx = inr e ->
     runtime.ExecuteTransaction rt tx s = Some ((None, None, Some e), s)) /\
  (forall o g, Tx.Signer tx = inl o -> Tx.IntrinsicGas tx = inl g -> g > Tx.Gas tx ->
     runtime.ExecuteTransaction rt tx s
       = Some ((None, None, Some (errors_New "intrinsic gas exceeds provided gas")), s)) /\
  (forall o g payer w,
     Tx.Signer tx = inl o -> Tx.IntrinsicGas tx = inl g -> g <= Tx.Gas tx ->
     cs.Consume (runtime.blockTime rt) o (runtime.commonTo (Tx.Clauses tx))
                (Tx.Gas tx * Tx.GasPrice tx) (state.world s) = ((payer, false), w) ->
     runtime.ExecuteTransaction rt tx s
       = Some ((None, None, Some (errors_New "insufficient energy")), s)) /\
  errors_New "intrinsic gas exceeds provided gas" <> errors_New "insufficient energy" /\
  (forall rcpt outs err s',
     runtime.ExecuteTransaction rt tx s = Some ((Some rcpt, outs, err), s') -> err = None).
Proof.
  intros Hpure.
  split; [|split; [|split; [|split; [|split]]]].
  - intros e He. unfold runtime.ExecuteTransaction, runtime.precheck. now rewrite He.
  - intros o e Ho He. unfold runtime.ExecuteTransaction, runtime.precheck. now rewrite Ho, He.
  - intros o g Ho Hg Hgt. unfold runtime.ExecuteTransaction, runtime.precheck.
    rewrite Ho, Hg. destruct (Z.gtb_spec g (Tx.Gas tx)); [reflexivity|lia].
  - intros o g payer w Ho Hg Hle Hc.
    unfold runtime.ExecuteTransaction, runtime.precheck, state.on_world.
    rewrite Ho, Hg. destruct (Z.gtb_spec g (Tx.Gas tx)); [lia|]. rewrite Hc. simpl.
    rewrite (Hpure _ _ _ _ _ _ _ Hc). now destruct s.
  - discriminate.
  - intros rcpt outs err s' Hrun.
    destruct (runtime.precheck rt tx s) as [p|[e s1]] eqn:Hp.
    + destruct (loop_outcome rt tx p) as (lsf & Hloop & _).
      rewrite (ExecuteTransaction_pass _ _ _ _ _ Hp Hloop), settle_eq in Hrun.
      now injection Hrun as _ _ <- _.
    + unfold runtime.ExecuteTransaction in Hrun. rewrite Hp in Hrun. discriminate.
Qed.

(** ** Further properties of a run *)


(** A turn that goes on had a clause without error, and stored its
    output in the receipt. *)
Lemma next_is_success rt tx p k ls clause ls' :
  runtime.at_head rt tx p k ls ->
  Tx.Clauses tx !! k = Some clause ->
  runtime.clause_body rt tx p (fst (runtime.enter_loop tx p)) k clause ls
    = Some (runtime.Next, ls') ->
  exists out outputs,
    runtime.vm_output rt tx p k clause ls = Some out /\ vm.VMErr out = None /\
    Tx.Outputs (runtime.receipt ls) = Some outputs /\
    Tx.Outputs (runtime.receipt ls')
      = Some (<[k:=Some {| Tx.Logs := map Tx.Log_of_vm (vm.Logs out) |}]> outputs).
Proof.
  intros Hat Hc Hbody.
  destruct (at_head_invariant _ _ _ _ _ Hat) as [(Hlen & _ & _ & (outputs & Ho & Hlo & _) & _) _].
  apply lookup_lt_Some in Hc.
  destruct (clause_body_run rt tx p (fst (runtime.enter_loop tx p)) k clause ls outputs)
    as (out & s' & Hex & _ & _ & Heq); [lia|exact Ho|lia|].
  rewrite Heq in Hbody. destruct (vm.VMErr out) as [e|] eqn:He; [discriminate|].
  injection Hbody as <-. exists out, outputs.
  split; [unfold runtime.vm_output; now rewrite Hex|]. auto.
Qed.

(** At a loop head the receipt holds the output of every earlier
    clause. *)
Lemma stored_receipt_outputs rt tx p i ls :
  runtime.at_head rt tx p i ls ->
  forall j lsj clause,
    (j < i)%nat -> runtime.at_head rt tx p j lsj -> Tx.Clauses tx !! j = Some clause ->
    exists out outputs,
      runtime.vm_output rt tx p j clause lsj = Some out /\ vm.VMErr out = None /\
      Tx.Outputs (runtime.receipt ls) = Some outputs /\
      outputs !! j = Some (Some {| Tx.Logs := map Tx.Log_of_vm (vm.Logs out) |}).
Proof.
  induction 1 as [|i clause ls ls' Hat IH Hc Hbody]; intros j lsj c Hj Hatj Hcj; [lia|].
  destruct (next_is_success _ _ _ _ _ _ _ Hat Hc Hbody) as (out & outputs & Hout & He & Ho & Ho').
  destruct (at_head_invariant _ _ _ _ _ Hat) as [(_ & _ & _ & (outputs' & Ho2 & Hlo & _) & _) _].
  rewrite Ho in Ho2. injection Ho2 as <-.
  pose proof (lookup_lt_Some _ _ _ Hc) as Hi.
  destruct (decide (j = i)) as [->|Hne].
  - rewrite (at_head_unique _ _ _ _ _ _ Hatj Hat). rewrite Hcj in Hc. injection Hc as ->.
    exists out. eexists. split; [exact Hout|]. split; [exact He|]. split; [exact Ho'|].
    apply list_lookup_insert_eq. lia.
  - destruct (IH j lsj c ltac:(lia) Hatj Hcj) as (outj & outputsj & Houtj & Hej & Hoj & Hlook).
    rewrite Ho in Hoj. injection Hoj as <-.
    exists outj. eexists. split; [exact Houtj|]. split; [exact Hej|]. split; [exact Ho'|].
    now rewrite list_lookup_insert_ne by congruence.
Qed.

(** X2. When the receipt returned has outputs, it has one per clause,
    in clause order: every clause was executed without error, and its
    output holds the logs the interpreter reported, field for field. *)
Theorem outputs_on_success rt tx s rcpt outs s' outputs :
  runtime.ExecuteTransaction rt tx s = Some ((Some rcpt, Some outs, None), s') ->
  Tx.Outputs rcpt = Some outputs ->
  exists p,
    runtime.precheck rt tx s = inl p /\
    length outputs = length (Tx.Clauses tx) /\
    forall i clause,
      Tx.Clauses tx !! i = Some clause ->
      exists ls out,
        runtime.at_head rt tx p i ls /\
        runtime.vm_output rt tx p i clause ls = Some out /\ vm.VMErr out = None /\
        outputs !! i = Some (Some {| Tx.Logs := map Tx.Log_of_vm (vm.Logs out) |}).
Proof.
  intros Hrun Hsome.
  destruct (runtime.precheck rt tx s) as [p|[e s1]] eqn:Hp;
    [|unfold runtime.ExecuteTransaction in Hrun; rewrite Hp in Hrun; discriminate].
  exists p. split; [reflexivity|].
  destruct (loop_outcome rt tx p) as (lsf & Hloop & Hend).
  rewrite (ExecuteTransaction_pass _ _ _ _ _ Hp Hloop), settle_eq in Hrun.
  injection Hrun as <- _ _. simpl in Hsome.
  destruct Hend as [Hend|(k & lsk & c & Hk & Hc & Hbody)].
  - destruct (at_head_invariant _ _ _ _ _ Hend) as [(_ & _ & _ & (o & Ho & Hlo & _) & _) _].
    rewrite Hsome in Ho. injection Ho as <-. split; [exact Hlo|].
    intros i clause Hci. pose proof (lookup_lt_Some _ _ _ Hci) as Hi.
    destruct (at_head_earlier _ _ _ _ _ Hend i Hi) as (lsi & _ & _ & Hati & _).
    destruct (stored_receipt_outputs _ _ _ _ _ Hend i lsi clause Hi Hati Hci)
      as (out & o' & Hout & He & Ho' & Hlook).
    rewrite Hsome in Ho'. injection Ho' as <-.
    exists lsi, out. auto.
  - destruct (break_is_failure _ _ _ _ _ _ _ Hk Hc Hbody) as (out & e & Hout & He).
    rewrite (body_failure _ _ _ _ _ _ _ _ Hk Hc Hout He) in Hbody.
    injection Hbody as <-. discriminate.
Qed.

(** X3. A transaction without clauses that passes the checks: the
    receipt has an empty, not an absent, list of outputs, and the gas
    used is the intrinsic gas. *)
Theorem zero_clauses rt tx s p :
  Tx.gas_in_range tx ->
  runtime.precheck rt tx s = inl p ->
  Tx.Clauses tx = [] ->
  exists s',
    runtime.ExecuteTransaction rt tx s =
      Some ((Some {| Tx.GasUsed := runtime.intrinsicGas p;
                     Tx.GasPayer := thor.Address_zero;
                     Tx.Reverted := false;
                     Tx.Outputs := Some [] |},
             Some [], None), s').
Proof.
  intros [Hgas Hig] Hp Hnil.
  destruct (precheck_pass _ _ _ _ Hp) as (_ & Hi & Hle & _).
  specialize (Hig _ Hi). unfold is_uint64 in Hgas, Hig.
  assert (Hloop : runtime.clause_loop rt tx p (fst (runtime.enter_loop tx p)) 0 (Tx.Clauses tx)
                    (snd (runtime.enter_loop tx p)) = Some (snd (runtime.enter_loop tx p))).
  { now rewrite Hnil. }
  rewrite (ExecuteTransaction_pass _ _ _ _ _ Hp Hloop), settle_eq, enter_loop_eq. simpl.
  rewrite Hnil. simpl.
  rewrite (sub64_small (Tx.Gas tx) (runtime.intrinsicGas p)) by lia.
  rewrite sub64_small by lia.
  replace (Tx.Gas tx - (Tx.Gas tx - runtime.intrinsicGas p)) with (runtime.intrinsicGas p) by lia.
  eauto.
Qed.

End ExecutionFacts.

(** ** Receipt formatting *)

Lemma unhex_byte (v : byte) (rest : string) :
  hexutil.unhex
    (String (hexutil.hexdigit (N.shiftr (Byte.to_N v) 4))
       (String (hexutil.hexdigit (N.land (Byte.to_N v) 15)) rest))
  = match hexutil.unhex rest with
    | Some bytes => Some (v :: bytes)
    | None => None
    end.
Proof. destruct v; reflexivity. Qed.

Lemma unhex_hex (b : list byte) : hexutil.unhex (hexutil.hex b) = Some b.
Proof.
  induction b as [|v b IH]; [reflexivity|].
  cbn [hexutil.hex]. rewrite unhex_byte. now rewrite IH.
Qed.

(** [Encode] loses nothing: the bytes are read back from its result. *)
Lemma Decode_Encode (b : list byte) : hexutil.Decode (hexutil.Encode b) = Some b.
Proof. unfold hexutil.Encode, hexutil.Decode. simpl. apply unhex_hex. Qed.

Lemma Encode_length (b : list byte) :
  String.length (hexutil.Encode b) = (2 + 2 * length b)%nat.
Proof.
  unfold hexutil.Encode. simpl. do 2 f_equal.
  induction b as [|v b IH]; simpl; [reflexivity|]. rewrite IH. lia.
Qed.

Lemma convert_log_fields (log : Tx.Log) :
  exists rl, types.convert_log (Some log) = Some rl /\
    types.Address rl = Tx.Address log /\
    types.Topics rl = Tx.Topics log /\
    types.Data rl = hexutil.Encode (Tx.LogData log) /\
    hexutil.Decode (types.Data rl) = Some (Tx.LogData log).
Proof.
  eexists. split; [reflexivity|]. simpl. unfold types.copy_topics. rewrite map_id.
  repeat split. apply Decode_Encode.
Qed.

Lemma convert_logs_total (logs : list (option Tx.Log)) :
  Forall (fun log => log <> None) logs -> is_Some (mapM types.convert_log logs).
Proof.
  intros Hall. apply mapM_is_Some. eapply Forall_impl; [exact Hall|].
  intros [log|] Hlog; [|congruence]. simpl. eauto.
Qed.

(** C9. For a receipt none of whose outputs and logs is a nil pointer,
    [ConvertReceipt] returns a receipt with the same gas used, gas payer
    and reverted flag, as many outputs in the same order, for each
    output as many logs in the same order, and for each log the same
    address, the same topics in the same order, and as data the
    0x-prefixed hex digits of the data bytes, from which the bytes are
    read back exactly. *)
Theorem ConvertReceipt_fidelity (rece : Tx.Receipt) :
  types.no_nil rece ->
  exists r,
    types.ConvertReceipt rece = Some r /\
    types.GasUsed r = Tx.GasUsed rece /\
    types.GasPayer r = Tx.GasPayer rece /\
    types.Reverted r = Tx.Reverted rece /\
    length (types.Outputs r) = length (types.slice_elements (Tx.Outputs rece)) /\
    forall i output,
      types.slice_elements (Tx.Outputs rece) !! i = Some (Some output) ->
      exists otp,
        types.Outputs r !! i = Some otp /\
        length (types.Logs otp) = length (Tx.Logs output) /\
        forall j log,
          Tx.Logs output !! j = Some (Some log) ->
          exists rl,
            types.Logs otp !! j = Some rl /\
            types.Address rl = Tx.Address log /\
            types.Topics rl = Tx.Topics log /\
            types.Data rl = hexutil.Encode (Tx.LogData log) /\
            hexutil.Decode (types.Data rl) = Some (Tx.LogData log).
Proof.
  intros Hnn. unfold types.no_nil in Hnn. unfold types.ConvertReceipt.
  assert (Hsome : is_Some (mapM types.convert_output (types.slice_elements (Tx.Outputs rece)))).
  { apply mapM_is_Some. eapply Forall_impl; [exact Hnn|].
    intros [output|] Ho; [|contradiction]. simpl.
    destruct (convert_logs_total _ Ho) as [logs ->]. eauto. }
  destruct Hsome as [outputs Hm]. rewrite Hm. eexists. split; [reflexivity|]. simpl.
  repeat (split; [reflexivity|]).
  split; [symmetry; eapply length_mapM; exact Hm|].
  intros i output Hi. apply mapM_Some_1 in Hm.
  destruct (Forall2_lookup_l _ _ _ _ _ Hm Hi) as (otp & Hotp & Hconv).
  exists otp. split; [exact Hotp|]. simpl in Hconv.
  destruct (mapM types.convert_log (Tx.Logs output)) as [logs|] eqn:Hl; [|discriminate].
  injection Hconv as <-. simpl.
  split; [symmetry; eapply length_mapM; exact Hl|].
  intros j log Hj. apply mapM_Some_1 in Hl.
  destruct (Forall2_lookup_l _ _ _ _ _ Hl Hj) as (rl & Hrl & Hc).
  destruct (convert_log_fields log) as (rl' & Hc' & Hfields).
  rewrite Hc in Hc'. injection Hc' as <-. exists rl. split; [exact Hrl|exact Hfields].
Qed.

(** C9, as stated, fails. The data of a converted log is text: for the
    data bytes 01 ab it is the six characters of [0x01ab], not those two
    bytes. And a receipt that holds a nil output is not converted at
    all: [ConvertReceipt] panics. *)
Lemma ConvertReceipt_data_is_hex_text :
  (exists r otp rl,
     types.ConvertReceipt example.a_receipt = Some r /\
     types.Outputs r = [otp] /\ types.Logs otp = [rl] /\
     types.Data rl = "0x01ab"%string /\
     list_byte_of_string (types.Data rl) <> [x01; xab]) /\
  types.ConvertReceipt example.a_receipt_with_nil = None.
Proof.
  split; [|reflexivity].
  do 3 eexists. split; [reflexivity|]. simpl.
  split; [reflexivity|]. split; [reflexivity|]. split; [reflexivity|]. discriminate.
Qed.

Lemma ConvertReceipt_fidelity_witness :
  types.no_nil example.a_receipt /\
  exists r,
    types.ConvertReceipt example.a_receipt = Some r /\
    types.GasUsed r = 21000 /\ length (types.Outputs r) = 1%nat.
Proof.
  assert (Hnn : types.no_nil example.a_receipt).
  { repeat constructor. discriminate. }
  split; [exact Hnn|].
  destruct (ConvertReceipt_fidelity example.a_receipt Hnn)
    as (r & Hr & Hgas & _ & _ & Hlen & _).
  exists r. split; [exact Hr|]. split; [exact Hgas|exact Hlen].
Defined.

(** ** The example instance satisfies the assumptions, and its runs *)

Lemma toy_gas_sound : vm.gas_sound (World := example.World) (Config := unit).
Proof.
  intros ctx cfg origin data gas value w [Hlo Hhi]. split.
  - unfold vm.gas_bounded. simpl. lia.
  - intros to. unfold vm.gas_bounded. simpl. unfold example.run.
    destruct (Z.ltb_spec gas 10); simpl; lia.
Qed.

Lemma toy_balance_stored : cs.balance_stored (World := example.World).
Proof. intros blockTime addr v w. reflexivity. Qed.

Lemma toy_consume_debits : cs.consume_debits (World := example.World).
Proof.
  intros blockTime caller callee amount w payer w'. simpl.
  destruct (Z.leb_spec amount (fst w)); intros [= <- <-]; reflexivity.
Qed.

Lemma toy_consume_failure_pure : cs.consume_failure_pure (World := example.World).
Proof.
  intros blockTime caller callee amount w payer w'. simpl.
  destruct (Z.leb_spec amount (fst w)); intros [= <- <-]; reflexivity.
Qed.

Lemma toy_gas_in_range : Tx.gas_in_range example.tx_failing.
Proof.
  split; [unfold is_uint64; simpl; split; [lia|reflexivity]|].
  intros g [= <-]. unfold is_uint64. split; [lia|reflexivity].
Qed.

Lemma toy_precheck :
  runtime.precheck example.rt example.tx_failing example.st0 = inl example.prechecked.
Proof. vm_compute. reflexivity. Qed.

Lemma toy_run_failing :
  runtime.ExecuteTransaction example.rt example.tx_failing example.st0
    = Some ((Some example.failing_receipt, Some example.failing_outputs, None),
            example.failing_state).
Proof. vm_compute. reflexivity. Qed.

(** The loop head of the second clause of [tx_failing]. *)
Lemma toy_second_head :
  exists ls,
    runtime.at_head example.rt example.tx_failing example.prechecked 1 ls /\
    runtime.leftOverGas ls = 75 /\
    state.world (runtime.st ls) = (800, 1).
Proof.
  eexists. split.
  - eapply runtime.at_head_next;
      [apply runtime.at_head_enter|reflexivity|vm_compute; reflexivity].
  - split; reflexivity.
Qed.

Lemma gas_conservation_witness :
  exists rcpt outs s',
    runtime.ExecuteTransaction example.rt example.tx_failing example.st0
      = Some ((Some rcpt, Some outs, None), s') /\
    Tx.GasUsed rcpt = 30 /\
    0 <= Tx.GasUsed rcpt <= Tx.Gas example.tx_failing.
Proof.
  destruct (gas_conservation example.rt example.tx_failing example.st0 example.prechecked
              toy_gas_sound toy_gas_in_range toy_precheck)
    as (lsf & rcpt & outs & s' & Hloop & Hrun & Hused & Hbounds).
  exists rcpt, outs, s'. split; [exact Hrun|]. split; [|exact Hbounds].
  vm_compute in Hrun. injection Hrun as <- _ _. reflexivity.
Defined.

Lemma refund_cap_witness :
  exists ctl ls',
    runtime.clause_body example.rt example.tx_failing example.prechecked
      (fst (runtime.enter_loop example.tx_failing example.prechecked)) 0
      (example.call 5%N 0) (snd (runtime.enter_loop example.tx_failing example.prechecked))
      = Some (ctl, ls') /\
    runtime.leftOverGas ls' = 70 + Z.min 8 ((80 - 70) / 2).
Proof.
  destruct (refund_cap example.rt example.tx_failing example.st0 example.prechecked 0
              (snd (runtime.enter_loop example.tx_failing example.prechecked))
              (example.call 5%N 0)
              {| vm.LeftOverGas := 70; vm.RefundGas := 8; vm.Logs := [Some example.a_log];
                 vm.VMErr := None |}
              toy_precheck (runtime.at_head_enter _ _ _) ltac:(reflexivity)
              ltac:(vm_compute; reflexivity) ltac:(simpl; lia))
    as (ctl & ls' & Hbody & _ & _ & Hexact).
  exists ctl, ls'. split; [exact Hbody|].
  apply Hexact; vm_compute; split; congruence.
Defined.

Lemma atomic_rollback_witness :
  exists rcpt outs s',
    runtime.ExecuteTransaction example.rt example.tx_failing example.st0
      = Some ((Some rcpt, Some outs, None), s') /\
    Tx.Outputs rcpt = None /\
    state.world s' = (940, 0) /\
    state.checkpoints s' = [] /\
    ~ runtime.executed example.rt example.tx_failing example.prechecked 2.
Proof.
  destruct toy_second_head as (ls & Hat & Hgas & Hw).
  assert (Hout : runtime.vm_output example.rt example.tx_failing example.prechecked 1
                   (example.call 6%N 1) ls
                 = Some {| vm.LeftOverGas := 65; vm.RefundGas := 8;
                           vm.Logs := [Some example.a_log];
                           vm.VMErr := Some "reverted"%string |}).
  { unfold runtime.vm_output, runtime.execute, state.on_world. simpl.
    rewrite Hgas. destruct (runtime.st ls). reflexivity. }
  destruct (atomic_rollback example.rt example.tx_failing example.st0 example.prechecked 1 ls
              (example.call 6%N 1) _ _ toy_precheck Hat ltac:(reflexivity) Hout
              ltac:(reflexivity))
    as (rcpt & outs & s' & Hrun & Hnone & Hworld & Hcps & Hafter).
  exists rcpt, outs, s'. split; [exact Hrun|]. split; [exact Hnone|].
  split; [|split; [exact Hcps|apply Hafter; lia]].
  rewrite Hworld, Hgas. reflexivity.
Defined.

Lemma vmOutputs_shape_witness :
  runtime.ExecuteTransaction example.rt example.tx_failing example.st0
    = Some ((Some example.failing_receipt, Some example.failing_outputs, None),
            example.failing_state) /\
  length example.failing_outputs = length (Tx.Clauses example.tx_failing) /\
  example.failing_outputs !! 2%nat = Some None.
Proof.
  split; [exact toy_run_failing|].
  destruct (vmOutputs_shape example.rt example.tx_failing example.st0 _ _ _ toy_run_failing)
    as (p & Hp & Hlen & _ & _ & Hnil).
  split; [exact Hlen|].
  rewrite toy_precheck in Hp. injection Hp as <-.
  destruct toy_second_head as (ls & Hat & Hgas & Hw).
  eapply (Hnil 1%nat ls (example.call 6%N 1)
            {| vm.LeftOverGas := 65; vm.RefundGas := 8; vm.Logs := [Some example.a_log];
               vm.VMErr := Some "reverted"%string |});
    [exact Hat|reflexivity| |discriminate|simpl; lia].
  unfold runtime.vm_output, runtime.execute, state.on_world. simpl.
  rewrite Hgas. destruct (runtime.st ls). reflexivity.
Defined.

Lemma receipt_reverted_unset_witness :
  runtime.ExecuteTransaction example.rt example.tx_failing example.st0
    = Some ((Some example.failing_receipt, Some example.failing_outputs, None),
            example.failing_state) /\
  Tx.Outputs example.failing_receipt = None /\
  Tx.Reverted example.failing_receipt = false.
Proof.
  split; [exact toy_run_failing|]. split; [reflexivity|].
  exact (receipt_reverted_unset example.rt example.tx_failing example.st0 _ _ _ _
           toy_run_failing).
Defined.

Lemma receipt_gas_payer_unset_witness :
  runtime.precheck example.rt example.tx_failing example.st0 = inl example.prechecked /\
  runtime.energyPayer example.prechecked = 7%N /\
  runtime.ExecuteTransaction example.rt example.tx_failing example.st0
    = Some ((Some example.failing_receipt, Some example.failing_outputs, None),
            example.failing_state) /\
  Tx.GasPayer example.failing_receipt = thor.Address_zero.
Proof.
  split; [exact toy_precheck|]. split; [reflexivity|]. split; [exact toy_run_failing|].
  exact (receipt_gas_payer_unset example.rt example.tx_failing example.st0 _ _ _ _
           toy_run_failing).
Defined.

Lemma energy_conservation_witness :
  exists rcpt outs s',
    runtime.ExecuteTransaction example.rt example.tx_failing example.st0
      = Some ((Some rcpt, Some outs, None), s') /\
    cs.GetBalance 30 7%N (state.world s')
      = cs.GetBalance 30 7%N (state.world example.st0) - Tx.GasUsed rcpt * 2.
Proof.
  destruct (energy_conservation example.rt example.tx_failing example.st0 example.prechecked
              toy_gas_sound toy_gas_in_range toy_balance_stored toy_consume_debits toy_precheck)
    as (_ & _ & lsf & rcpt & outs & s' & _ & Hrun & _ & _ & _ & Hnet).
  exists rcpt, outs, s'. split; [exact Hrun|]. apply Hnet.
  vm_compute in Hrun. injection Hrun as <- _ _. reflexivity.
Defined.

Lemma pre_execution_rejection_witness :
  cs.consume_failure_pure (World := example.World) /\
  runtime.ExecuteTransaction example.rt example.tx_unaffordable example.st0
    = Some ((None, None, Some (errors_New "insufficient energy")), example.st0).
Proof.
  split; [exact toy_consume_failure_pure|].
  destruct (pre_execution_rejection example.rt example.tx_unaffordable example.st0
              toy_consume_failure_pure) as (_ & _ & _ & Henergy & _).
  eapply Henergy; [reflexivity|reflexivity|simpl; lia|reflexivity].
Defined.

(** Two calls that succeed: both outputs are in the receipt, both
    writes stay, and the payer has paid for the 30 gas used. *)
Example toy_run_ok :
  exists rcpt outputs outs s',
    runtime.ExecuteTransaction example.rt example.tx_ok example.st0
      = Some ((Some rcpt, Some outs, None), s') /\
    Tx.Outputs rcpt = Some outputs /\ length outputs = 2%nat /\
    Tx.GasUsed rcpt = 30 /\
    state.world s' = (940, 2).
Proof.
  eexists _, _, _, _. split; [vm_compute; reflexivity|].
  split; [reflexivity|]. repeat split.
Qed.

Lemma outputs_on_success_witness :
  exists rcpt outputs outs s',
    runtime.ExecuteTransaction example.rt example.tx_ok example.st0
      = Some ((Some rcpt, Some outs, None), s') /\
    Tx.Outputs rcpt = Some outputs /\
    length outputs = length (Tx.Clauses example.tx_ok).
Proof.
  destruct toy_run_ok as (rcpt & outputs & outs & s' & Hrun & Ho & _).
  destruct (outputs_on_success example.rt example.tx_ok example.st0 _ _ _ _ Hrun Ho)
    as (p & _ & Hlen & _).
  exists rcpt, outputs, outs, s'. auto.
Defined.

Lemma zero_clauses_witness :
  exists s',
    runtime.ExecuteTransaction example.rt (example.transaction []) example.st0 =
      Some ((Some {| Tx.GasUsed := 20; Tx.GasPayer := thor.Address_zero;
                     Tx.Reverted := false; Tx.Outputs := Some [] |},
             Some [], None), s').
Proof.
  assert (Hrange : Tx.gas_in_range (example.transaction [])).
  { split; [split; [simpl; lia|reflexivity]|].
    intros g [= <-]. split; [lia|reflexivity]. }
  assert (Hp : runtime.precheck example.rt (example.transaction []) example.st0
               = inl example.prechecked) by (vm_compute; reflexivity).
  exact (zero_clauses example.rt (example.transaction []) example.st0 example.prechecked
           Hrange Hp eq_refl).
Defined.

(** * Further properties *)

(** ** The common recipient, continued *)

Lemma commonTo_rest_cases (A : thor.Address) (rest : list Tx.Clause) :
  runtime.commonTo_rest A rest = thor.Address_zero \/
  (runtime.commonTo_rest A rest = A /\ Forall (fun c => Tx.To c = Some A) rest).
Proof.
  induction rest as [|c rest IH]; simpl; [right; auto|].
  destruct (Tx.To c) as [to|] eqn:Hc; [|now left].
  destruct (decide (to = A)) as [->|Hne].
  - rewrite bool_decide_eq_false_2 by (intros Hn; now apply Hn).
    destruct IH as [IH|[IH Hall]]; [now left|]. right. split; [exact IH|].
    constructor; assumption.
  - rewrite bool_decide_eq_true_2 by exact Hne. now left.
Qed.

Lemma commonTo_all (A : thor.Address) (clauses : list Tx.Clause) :
  clauses <> [] -> Forall (fun c => Tx.To c = Some A) clauses ->
  runtime.commonTo clauses = A.
Proof.
  intros Hne Hall. destruct clauses as [|c0 rest]; [congruence|].
  inversion Hall as [|? ? H0 Hrest]; subst. simpl. rewrite H0.
  now apply commonTo_rest_all.
Qed.

Lemma commonTo_cases (clauses : list Tx.Clause) :
  runtime.commonTo clauses = thor.Address_zero \/
  (clauses <> [] /\
   Forall (fun c => Tx.To c = Some (runtime.commonTo clauses)) clauses).
Proof.
  destruct clauses as [|c0 rest]; [now left|]. simpl.
  destruct (Tx.To c0) as [firstTo|] eqn:H0; [|now left].
  destruct (commonTo_rest_cases firstTo rest) as [Hz|[Heq Hall]]; [now left|].
  right. split; [discriminate|]. rewrite Heq. constructor; assumption.
Qed.

(** X4. The result of [commonTo] is the empty address, or else the list
    is not empty and every clause has that result as its recipient: an
    address other than the empty one is never returned for clauses that
    do not all share it. *)
Theorem commonTo_sound (clauses : list Tx.Clause) :
  runtime.commonTo clauses = thor.Address_zero \/
  (clauses <> [] /\
   Forall (fun c => Tx.To c = Some (runtime.commonTo clauses)) clauses).
Proof.
  destruct clauses as [|c0 rest]; [now left|]. simpl.
  destruct (Tx.To c0) as [firstTo|] eqn:H0; [|now left].
  destruct (commonTo_rest_cases firstTo rest) as [Hz|[Heq Hall]]; [now left|].
  right. split; [discriminate|]. rewrite Heq. constructor; assumption.
Qed.

(** X5. The order of the clauses does not matter to [commonTo]. *)
Theorem commonTo_Permutation (clauses clauses' : list Tx.Clause) :
  clauses ≡ₚ clauses' -> runtime.commonTo clauses = runtime.commonTo clauses'.
Proof.
  intros Hperm.
  assert (Hmove : forall l l' : list Tx.Clause, l ≡ₚ l' ->
            l <> [] /\ Forall (fun c => Tx.To c = Some (runtime.commonTo l)) l ->
            runtime.commonTo l' = runtime.commonTo l).
  { intros l l' Hp [Hne Hall]. apply commonTo_all.
    - intros ->. apply Permutation_nil_r in Hp. contradiction.
    - now rewrite <- Hp. }
  destruct (commonTo_cases clauses) as [Hz|Hall].
  - destruct (commonTo_cases clauses') as [Hz'|Hall']; [congruence|].
    apply (Hmove clauses' clauses); [now symmetry|exact Hall'].
  - symmetry. now apply (Hmove clauses clauses').
Qed.

Lemma commonTo_Permutation_witness :
  runtime.commonTo [example.call 5%N 0; example.call 6%N 1; example.call 5%N 2]
  = runtime.commonTo [example.call 6%N 1; example.call 5%N 2; example.call 5%N 0].
Proof.
  apply commonTo_Permutation.
  apply (Permutation_cons_append [example.call 6%N 1; example.call 5%N 2] (example.call 5%N 0)).
Defined.

(** ** The clause loop, continued *)

Section MoreExecutionFacts.
Context {World Config : Type} `{!vm.VM World Config} `{!cs.Energy World}.
Implicit Types (rt : runtime.Runtime Config) (tx : Tx.Transaction) (clause : Tx.Clause).
Implicit Types (s : state.State World) (p : @runtime.Prechecked World).
Implicit Types (ls : @runtime.LoopState World).


(** What failing the checks means. *)
Lemma precheck_fail rt tx s err s1 :
  runtime.precheck rt tx s = inr (err, s1) ->
  (Tx.Signer tx = inr err /\ s1 = s) \/
  (Tx.IntrinsicGas tx = inr err /\ s1 = s) \/
  (err = errors_New "intrinsic gas exceeds provided gas" /\
   (exists g, Tx.IntrinsicGas tx = inl g /\ g > Tx.Gas tx) /\ s1 = s) \/
  (err = errors_New "insufficient energy" /\
   state.checkpoints s1 = state.checkpoints s /\
   exists o payer,
     Tx.Signer tx = inl o /\
     cs.Consume (runtime.blockTime rt) o (runtime.commonTo (Tx.Clauses tx))
                (Tx.Gas tx * Tx.GasPrice tx) (state.world s)
       = ((payer, false), state.world s1)).
Proof.
  unfold runtime.precheck, state.on_world.
  destruct (Tx.Signer tx) as [o|e]; [|intros [= <- <-]; now left].
  destruct (Tx.IntrinsicGas tx) as [g|e]; [|intros [= <- <-]; right; now left].
  destruct (Z.gtb_spec g (Tx.Gas tx)) as [Hgt|Hle].
  - intros [= <- <-]. right. right. left. split; [reflexivity|]. split; [|reflexivity].
    exists g. split; [reflexivity|lia].
  - destruct (cs.Consume _ _ _ _ _) as [[payer ok] w] eqn:Hc.
    destruct ok; simpl; [discriminate|]. intros [= <- <-]. right. right. right.
    split; [reflexivity|]. split; [reflexivity|]. exists o, payer. simpl. auto.
Qed.

(** X7. [ExecuteTransaction] returns either a receipt and the outputs
    with a nil error, or a nil receipt and nil outputs with an error.
    The error is the signer's, the intrinsic gas's, or one of the two
    of the runtime; in the first three cases the state is the one found,
    in the last it is the one the failed [Consume] left. *)
Theorem ExecuteTransaction_result_shape rt tx s r o e s' :
  runtime.ExecuteTransaction rt tx s = Some ((r, o, e), s') ->
  (exists rcpt outs p,
     r = Some rcpt /\ o = Some outs /\ e = None /\ runtime.precheck rt tx s = inl p) \/
  (r = None /\ o = None /\
   exists err,
     e = Some err /\
     ((Tx.Signer tx = inr err /\ s' = s) \/
      (Tx.IntrinsicGas tx = inr err /\ s' = s) \/
      (err = errors_New "intrinsic gas exceeds provided gas" /\
       (exists g, Tx.IntrinsicGas tx = inl g /\ g > Tx.Gas tx) /\ s' = s) \/
      (err = errors_New "insufficient energy" /\
       state.checkpoints s' = state.checkpoints s /\
       exists origin payer,
         Tx.Signer tx = inl origin /\
         cs.Consume (runtime.blockTime rt) origin (runtime.commonTo (Tx.Clauses tx))
                    (Tx.Gas tx * Tx.GasPrice tx) (state.world s)
           = ((payer, false), state.world s')))).
Proof.
  intros Hrun. destruct (runtime.precheck rt tx s) as [p|[err s1]] eqn:Hp.
  - left. destruct (loop_outcome rt tx p) as (lsf & Hloop & _).
    rewrite (ExecuteTransaction_pass _ _ _ _ _ Hp Hloop), settle_eq in Hrun.
    injection Hrun as <- <- <- _. eauto 10.
  - right. unfold runtime.ExecuteTransaction in Hrun. rewrite Hp in Hrun.
    injection Hrun as <- <- <- <-. split; [reflexivity|]. split; [reflexivity|].
    exists err. split; [reflexivity|]. exact (precheck_fail _ _ _ _ _ Hp).
Qed.

(** X8. The receipt returned has no outputs exactly when one of the
    interpreter outputs returned carries an error. *)
Theorem outputs_absent_iff_error rt tx s rcpt outs s' :
  runtime.ExecuteTransaction rt tx s = Some ((Some rcpt, Some outs, None), s') ->
  (Tx.Outputs rcpt = None <->
   exists i out, outs !! i = Some (Some out) /\ vm.VMErr out <> None).
Proof.
  intros Hrun.
  destruct (runtime.precheck rt tx s) as [p|[e s1]] eqn:Hp;
    [|unfold runtime.ExecuteTransaction in Hrun; rewrite Hp in Hrun; discriminate].
  destruct (loop_outcome rt tx p) as (lsf & Hloop & Hend).
  rewrite (ExecuteTransaction_pass _ _ _ _ _ Hp Hloop), settle_eq in Hrun.
  injection Hrun as <- <- _. simpl.
  destruct Hend as [Hend|(k & lsk & c & Hk & Hc & Hbody)].
  - destruct (at_head_invariant _ _ _ _ _ Hend)
      as [(Hlen & Hdone & _ & (o & Ho & _) & _) _].
    split; [congruence|]. intros (i & out & Hi & He). exfalso.
    pose proof (lookup_lt_Some _ _ _ Hi) as Hlt. rewrite Hlen in Hlt.
    destruct (Hdone i Hlt) as (out' & Hi' & He'). congruence.
  - destruct (break_is_failure _ _ _ _ _ _ _ Hk Hc Hbody) as (out & e & Hout & He).
    rewrite (body_failure _ _ _ _ _ _ _ _ Hk Hc Hout He) in Hbody.
    injection Hbody as <-. simpl. split; [|reflexivity]. intros _.
    exists k, out. split; [|congruence]. apply list_lookup_insert_eq.
    destruct (at_head_invariant _ _ _ _ _ Hk) as [(Hlen & _) _].
    apply lookup_lt_Some in Hc. lia.
Qed.

(** X9. Along the loop the gas left never grows, and no counter wraps:
    at a later loop head it is at most what it was at an earlier one,
    which is at most the gas limit minus the intrinsic gas. *)
Theorem leftover_gas_decreases rt tx s p i j ls ls' :
  vm.gas_sound -> Tx.gas_in_range tx ->
  runtime.precheck rt tx s = inl p ->
  runtime.at_head rt tx p i ls ->
  runtime.at_head rt tx p j ls' ->
  (i <= j)%nat ->
  0 <= runtime.leftOverGas ls' <= runtime.leftOverGas ls /\
  runtime.leftOverGas ls <= Tx.Gas tx - runtime.intrinsicGas p.
Proof.
  intros Hsound [Hgas Hig] Hp Hi Hj Hij.
  destruct (precheck_pass _ _ _ _ Hp) as (_ & Hint & Hle & _).
  specialize (Hig _ Hint).
  assert (Hrange : 0 <= runtime.intrinsicGas p <= Tx.Gas tx)
    by (unfold is_uint64 in Hig; lia).
  pose proof (at_head_gas _ _ _ _ _ Hsound Hgas Hrange Hi) as Hli.
  split; [|lia].
  induction Hj as [|j clause lsj ls' Hj IH Hc Hbody].
  - assert (i = 0%nat) as -> by lia.
    rewrite (at_head_unique _ _ _ _ _ _ Hi (runtime.at_head_enter rt tx p)) in *. lia.
  - destruct (decide (i = S j)) as [->|Hne].
    + rewrite (at_head_unique _ _ _ _ _ _ Hi
                 (runtime.at_head_next _ _ _ _ _ _ _ Hj Hc Hbody)) in *. lia.
    + specialize (IH ltac:(lia)).
      destruct (at_head_invariant _ _ _ _ _ Hj) as [Hinv _].
      apply lookup_lt_Some in Hc.
      pose proof (at_head_gas _ _ _ _ _ Hsound Hgas Hrange Hj) as Hlj.
      unfold is_uint64 in Hgas.
      pose proof (fun Hr => body_gas _ _ _ _ _ _ _ _ _ Hinv Hc Hsound Hr Hbody) as Hb.
      specialize (Hb ltac:(unfold is_uint64; lia)). lia.
Qed.

(** X10. The gas used that a receipt reports is at least the intrinsic
    gas of the transaction, and at most its gas limit. *)
Theorem gas_used_at_least_intrinsic rt tx s rcpt outs err s' :
  vm.gas_sound -> Tx.gas_in_range tx ->
  runtime.ExecuteTransaction rt tx s = Some ((Some rcpt, outs, err), s') ->
  exists g, Tx.IntrinsicGas tx = inl g /\ g <= Tx.GasUsed rcpt <= Tx.Gas tx.
Proof.
  intros Hsound [Hgas Hig] Hrun.
  destruct (runtime.precheck rt tx s) as [p|[e s1]] eqn:Hp;
    [|unfold runtime.ExecuteTransaction in Hrun; rewrite Hp in Hrun; discriminate].
  destruct (precheck_pass _ _ _ _ Hp) as (_ & Hint & Hle & _).
  specialize (Hig _ Hint). exists (runtime.intrinsicGas p). split; [exact Hint|].
  destruct (loop_outcome rt tx p) as (lsf & Hloop & _).
  pose proof (loop_gas rt tx p lsf Hsound Hgas ltac:(unfold is_uint64 in Hig; lia) Hloop) as Hl.
  rewrite (ExecuteTransaction_pass _ _ _ _ _ Hp Hloop), settle_eq in Hrun.
  injection Hrun as <- _ _ _. simpl.
  unfold is_uint64 in Hgas, Hig. rewrite sub64_small by lia. lia.
Qed.

(** X11. A clause that [Call] runs without error, with the gas left and
    on the state of its loop head, leads to the next loop head: the
    state there is the one the call left, and the gas left is the gas
    the call reports plus the capped refund. Between two clauses the
    runtime touches neither. *)
Theorem successful_clause_leads_on rt tx p i ls clause out s1 :
  runtime.at_head rt tx p i ls ->
  Tx.Clauses tx !! i = Some clause ->
  runtime.Call rt clause i (runtime.leftOverGas ls) (runtime.origin p)
               (Tx.GasPrice tx) (Tx.ID tx) (runtime.st ls) = Some (out, s1) ->
  vm.VMErr out = None ->
  exists ls',
    runtime.at_head rt tx p (S i) ls' /\
    runtime.st ls' = s1 /\
    runtime.leftOverGas ls' = runtime.gas_after (runtime.leftOverGas ls) out.
Proof.
  intros Hat Hc Hcall Herr. unfold runtime.Call in Hcall.
  destruct (at_head_invariant _ _ _ _ _ Hat) as [(Hlen & _ & _ & (outputs & Ho & Hlo & _) & _) _].
  pose proof (lookup_lt_Some _ _ _ Hc) as Hi.
  destruct (clause_body_run rt tx p (fst (runtime.enter_loop tx p)) i clause ls outputs)
    as (out' & s' & Hex & _ & _ & Heq); [lia|exact Ho|lia|].
  rewrite Hex in Hcall. injection Hcall as -> ->. rewrite Herr in Heq.
  eexists. split; [eapply runtime.at_head_next; eauto|]. auto.
Qed.


End MoreExecutionFacts.

(** ** Receipt formatting, continued *)

Lemma convert_outputs_total (outputs : list (option Tx.Output)) :
  Forall (fun output =>
            match output with
            | None => False
            | Some output => Forall (fun log : option Tx.Log => log <> None) (Tx.Logs output)
            end) outputs ->
  is_Some (mapM types.convert_output outputs).
Proof.
  intros Hall. apply mapM_is_Some. eapply Forall_impl; [exact Hall|].
  intros [output|] Ho; [|contradiction]. simpl.
  destruct (convert_logs_total _ Ho) as [logs ->]. eauto.
Qed.

Lemma convert_log_some (log : option Tx.Log) (rl : types.ReceiptLog) :
  types.convert_log log = Some rl -> log <> None.
Proof. destruct log; [discriminate|]. discriminate. Qed.

(** X13. [ConvertReceipt] returns exactly for the receipts none of whose
    outputs and logs is a nil pointer; for every other receipt it
    panics. *)
Theorem ConvertReceipt_returns_iff (rece : Tx.Receipt) :
  is_Some (types.ConvertReceipt rece) <-> types.no_nil rece.
Proof.
  unfold types.ConvertReceipt, types.no_nil. split.
  - intros [r Hr].
    destruct (mapM types.convert_output (types.slice_elements (Tx.Outputs rece)))
      as [outputs|] eqn:Hm; [|discriminate].
    apply mapM_Some_1 in Hm. clear Hr.
    induction Hm as [|output otp l k Hconv _ IH]; constructor; [|exact IH].
    destruct output as [output|]; [|discriminate]. simpl in Hconv.
    destruct (mapM types.convert_log (Tx.Logs output)) as [logs|] eqn:Hl; [|discriminate].
    apply mapM_Some_1 in Hl. clear Hconv.
    induction Hl as [|log rl l' k' Hc _ IH']; constructor; [|exact IH'].
    exact (convert_log_some _ _ Hc).
  - intros Hnn. destruct (convert_outputs_total _ Hnn) as [outputs ->]. eauto.
Qed.

Lemma hex_inj (a b : list byte) : hexutil.hex a = hexutil.hex b -> a = b.
Proof.
  intros Heq. apply (f_equal hexutil.unhex) in Heq.
  rewrite !unhex_hex in Heq. congruence.
Qed.

Lemma Encode_inj (a b : list byte) : hexutil.Encode a = hexutil.Encode b -> a = b.
Proof.
  intros Heq. apply (f_equal hexutil.Decode) in Heq.
  rewrite !Decode_Encode in Heq. congruence.
Qed.

Lemma convert_log_inj (a b : option Tx.Log) (rl : types.ReceiptLog) :
  types.convert_log a = Some rl -> types.convert_log b = Some rl -> a = b.
Proof.
  destruct a as [[aa at_ ad]|]; [|discriminate]. destruct b as [[ba bt bd]|]; [|discriminate].
  simpl. unfold types.copy_topics. rewrite !map_id. intros [= <-] [= Ha Ht Hd].
  apply hex_inj in Hd. congruence.
Qed.

Lemma mapM_inj {A B : Type} (f : A -> option B) :
  (forall a b x, f a = Some x -> f b = Some x -> a = b) ->
  forall l1 l2 k, mapM f l1 = Some k -> mapM f l2 = Some k -> l1 = l2.
Proof.
  intros Hinj l1 l2 k H1 H2. apply mapM_Some_1 in H1. apply mapM_Some_1 in H2.
  revert l2 H2. induction H1 as [|a x l1 k Ha _ IH]; intros l2 H2.
  - now inversion H2.
  - inversion H2 as [|b x' l2' k' Hb Hrest]; subst. f_equal; eauto.
Qed.

Lemma convert_output_inj (a b : option Tx.Output) (otp : types.Output) :
  types.convert_output a = Some otp -> types.convert_output b = Some otp -> a = b.
Proof.
  destruct a as [[la]|]; [|discriminate]. destruct b as [[lb]|]; [|discriminate]. simpl.
  destruct (mapM types.convert_log la) as [ka|] eqn:Ha; [|discriminate].
  destruct (mapM types.convert_log lb) as [kb|] eqn:Hb; [|discriminate].
  intros [= <-] [= Hk]. subst kb.
  now rewrite (mapM_inj _ convert_log_inj _ _ _ Ha Hb).
Qed.

(** X14. [ConvertReceipt] loses nothing but the difference between an
    absent and an empty list of outputs: two receipts that are converted
    to the same receipt have the same gas used, gas payer and reverted
    flag, and the same outputs, with the same logs, addresses, topics
    and data bytes. *)
Theorem ConvertReceipt_injective (rece1 rece2 : Tx.Receipt) (r : types.Receipt) :
  types.ConvertReceipt rece1 = Some r ->
  types.ConvertReceipt rece2 = Some r ->
  Tx.GasUsed rece1 = Tx.GasUsed rece2 /\
  Tx.GasPayer rece1 = Tx.GasPayer rece2 /\
  Tx.Reverted rece1 = Tx.Reverted rece2 /\
  types.slice_elements (Tx.Outputs rece1) = types.slice_elements (Tx.Outputs rece2).
Proof.
  unfold types.ConvertReceipt.
  destruct (mapM types.convert_output (types.slice_elements (Tx.Outputs rece1)))
    as [o1|] eqn:H1; [|discriminate].
  destruct (mapM types.convert_output (types.slice_elements (Tx.Outputs rece2)))
    as [o2|] eqn:H2; [|discriminate].
  intros [= <-] [= Hg Hp Hr Ho]. subst o2.
  repeat (split; [congruence|]).
  exact (mapM_inj _ convert_output_inj _ _ _ H1 H2).
Qed.

Lemma ConvertReceipt_injective_witness :
  types.ConvertReceipt example.failing_receipt
    = types.ConvertReceipt
        {| Tx.GasUsed := 30; Tx.GasPayer := thor.Address_zero; Tx.Reverted := false;
           Tx.Outputs := Some [] |} /\
  types.slice_elements (Tx.Outputs example.failing_receipt) = [].
Proof.
  split; [reflexivity|].
  exact (proj2 (proj2 (proj2
    (ConvertReceipt_injective example.failing_receipt
       {| Tx.GasUsed := 30; Tx.GasPayer := thor.Address_zero; Tx.Reverted := false;
          Tx.Outputs := Some [] |} _ eq_refl eq_refl)))).
Defined.

Lemma ConvertReceipt_fields (rece : Tx.Receipt) (r : types.Receipt) :
  types.ConvertReceipt rece = Some r ->
  types.GasUsed r = Tx.GasUsed rece /\
  types.Reverted r = Tx.Reverted rece /\
  length (types.Outputs r) = length (types.slice_elements (Tx.Outputs rece)).
Proof.
  unfold types.ConvertReceipt.
  destruct (mapM types.convert_output (types.slice_elements (Tx.Outputs rece)))
    as [outputs|] eqn:Hm; [|discriminate].
  intros [= <-]. simpl. repeat split. symmetry. eapply length_mapM; exact Hm.
Qed.

Section ReceiptOfRun.
Context {World Config : Type} `{!vm.VM World Config} `{!cs.Energy World}.

(** X15. The receipt [ExecuteTransaction] returns is converted without
    panic, provided no log the interpreter reported is a nil pointer.
    The converted receipt has the gas used of the receipt and reverted
    false; it has an output per clause when the receipt has outputs, and
    an empty list of outputs when it has none. *)
Theorem ExecuteTransaction_receipt_converts (rt : runtime.Runtime Config) (tx : Tx.Transaction)
    (s s' : state.State World) (rcpt : Tx.Receipt) (outs : list (option vm.Output)) :
  runtime.ExecuteTransaction rt tx s = Some ((Some rcpt, Some outs, None), s') ->
  (forall i out, outs !! i = Some (Some out) ->
                 Forall (fun log : option vm.Log => log <> None) (vm.Logs out)) ->
  exists r,
    types.ConvertReceipt rcpt = Some r /\
    types.GasUsed r = Tx.GasUsed rcpt /\
    types.Reverted r = false /\
    (Tx.Outputs rcpt = None -> types.Outputs r = []) /\
    (Tx.Outputs rcpt <> None -> length (types.Outputs r) = length (Tx.Clauses tx)).
Proof.
  intros Hrun Hlogs.
  destruct (returned_flags _ _ _ _ _ _ _ Hrun) as [Hrev _].
  destruct (runtime.precheck rt tx s) as [p|[e s1]] eqn:Hp;
    [|unfold runtime.ExecuteTransaction in Hrun; rewrite Hp in Hrun; discriminate].
  destruct (loop_outcome rt tx p) as (lsf & Hloop & Hend).
  rewrite (ExecuteTransaction_pass _ _ _ _ _ Hp Hloop), settle_eq in Hrun.
  injection Hrun as <- <- _.
  match goal with |- context [types.ConvertReceipt ?x] => set (rcpt := x) in * end.
  assert (Hlen : Tx.Outputs rcpt <> None ->
                 length (types.slice_elements (Tx.Outputs rcpt)) = length (Tx.Clauses tx)).
  { subst rcpt. simpl. intros Hsome.
    destruct Hend as [Hend|(k & lsk & c & Hk & Hc & Hbody)].
    - destruct (at_head_invariant _ _ _ _ _ Hend) as [(_ & _ & _ & (o & Ho & Hlo & _) & _) _].
      now rewrite Ho.
    - destruct (break_is_failure _ _ _ _ _ _ _ Hk Hc Hbody) as (out & e & Hout & He).
      rewrite (body_failure _ _ _ _ _ _ _ _ Hk Hc Hout He) in Hbody.
      injection Hbody as <-. contradiction. }
  assert (Hnn : types.no_nil rcpt).
  { unfold types.no_nil. subst rcpt. simpl.
    destruct (Tx.Outputs (runtime.receipt lsf)) as [outputs|] eqn:Ho; [|constructor].
    simpl. apply Forall_lookup. intros i x Hx.
    destruct Hend as [Hend|(k & lsk & c & Hk & Hc & Hbody)].
    - destruct (at_head_invariant _ _ _ _ _ Hend) as [(_ & _ & _ & (o & Ho' & Hlo & _) & _) _].
      rewrite Ho in Ho'. injection Ho' as <-.
      pose proof (lookup_lt_Some _ _ _ Hx) as Hi. rewrite Hlo in Hi.
      destruct (at_head_earlier _ _ _ _ _ Hend i Hi) as (lsi & clause & _ & Hati & Hci & _).
      destruct (stored_receipt_outputs _ _ _ _ _ Hend i lsi clause Hi Hati Hci)
        as (out & o' & Hout & _ & Ho' & Hlook).
      rewrite Ho in Ho'. injection Ho' as <-. rewrite Hx in Hlook. injection Hlook as ->.
      destruct (stored_outputs _ _ _ _ _ Hend i lsi clause Hi Hati Hci) as (out' & Hout' & Hst).
      rewrite Hout in Hout'. injection Hout' as <-. simpl.
      apply Forall_map. eapply Forall_impl; [exact (Hlogs i out Hst)|].
      intros [l|] Hl; [discriminate|congruence].
    - destruct (break_is_failure _ _ _ _ _ _ _ Hk Hc Hbody) as (out & e & Hout & He).
      rewrite (body_failure _ _ _ _ _ _ _ _ Hk Hc Hout He) in Hbody.
      injection Hbody as <-. discriminate. }
  destruct (convert_outputs_total _ Hnn) as [outputs Hm].
  assert (Hconv : types.ConvertReceipt rcpt
                  = Some {| types.GasUsed := Tx.GasUsed rcpt; types.GasPayer := Tx.GasPayer rcpt;
                            types.Reverted := Tx.Reverted rcpt; types.Outputs := outputs |}).
  { unfold types.ConvertReceipt. now rewrite Hm. }
  destruct (ConvertReceipt_fields _ _ Hconv) as (Hg & Hr & Hl).
  eexists. split; [exact Hconv|]. split; [exact Hg|]. split; [now rewrite Hr|].
  simpl in Hl |- *. split.
  - intros Hnone. rewrite Hnone in Hl. simpl in Hl. now destruct outputs.
  - intros Hsome. rewrite Hl. now apply Hlen.
Qed.

End ReceiptOfRun.

(** ** Runs of the example instance, continued *)

Lemma ExecuteTransaction_result_shape_witness :
  runtime.ExecuteTransaction example.rt example.tx_failing example.st0
    = Some ((Some example.failing_receipt, Some example.failing_outputs, None),
            example.failing_state) /\
  exists p, runtime.precheck example.rt example.tx_failing example.st0 = inl p.
Proof.
  split; [exact toy_run_failing|].
  destruct (ExecuteTransaction_result_shape example.rt example.tx_failing example.st0
              _ _ _ _ toy_run_failing)
    as [(rcpt & outs & p & _ & _ & _ & Hp)|(Hnone & _)].
  - exists p. exact Hp.
  - discriminate Hnone.
Defined.

Lemma outputs_absent_iff_error_witness :
  Tx.Outputs example.failing_receipt = None <->
  exists i out, example.failing_outputs !! i = Some (Some out) /\ vm.VMErr out <> None.
Proof.
  exact (outputs_absent_iff_error example.rt example.tx_failing example.st0
           _ _ _ toy_run_failing).
Defined.

Lemma leftover_gas_decreases_witness :
  exists ls,
    runtime.at_head example.rt example.tx_failing example.prechecked 1 ls /\
    0 <= runtime.leftOverGas ls
      <= runtime.leftOverGas (snd (runtime.enter_loop example.tx_failing example.prechecked)).
Proof.
  destruct toy_second_head as (ls & Hat & _).
  exists ls. split; [exact Hat|].
  exact (proj1 (leftover_gas_decreases example.rt example.tx_failing example.st0
                  example.prechecked 0 1 _ ls toy_gas_sound toy_gas_in_range toy_precheck
                  (runtime.at_head_enter _ _ _) Hat ltac:(lia))).
Defined.

Lemma gas_used_at_least_intrinsic_witness :
  exists g,
    Tx.IntrinsicGas example.tx_failing = inl g /\
    g <= Tx.GasUsed example.failing_receipt <= Tx.Gas example.tx_failing.
Proof.
  exact (gas_used_at_least_intrinsic example.rt example.tx_failing example.st0 _ _ _ _
           toy_gas_sound toy_gas_in_range toy_run_failing).
Defined.

Lemma toy_first_call :
  runtime.Call example.rt (example.call 5%N 0) 0
    (runtime.leftOverGas (snd (runtime.enter_loop example.tx_failing example.prechecked)))
    (runtime.origin example.prechecked) (Tx.GasPrice example.tx_failing)
    (Tx.ID example.tx_failing)
    (runtime.st (snd (runtime.enter_loop example.tx_failing example.prechecked)))
  = Some ({| vm.LeftOverGas := 70; vm.RefundGas := 8; vm.Logs := [Some example.a_log];
             vm.VMErr := None |},
          {| state.world := (800, 1); state.checkpoints := [(800, 0)] |}).
Proof. vm_compute. reflexivity. Qed.

Lemma successful_clause_leads_on_witness :
  exists ls,
    runtime.at_head example.rt example.tx_failing example.prechecked 1 ls /\
    runtime.st ls = {| state.world := (800, 1); state.checkpoints := [(800, 0)] |} /\
    runtime.leftOverGas ls = 75.
Proof.
  destruct (successful_clause_leads_on example.rt example.tx_failing example.prechecked 0
              _ (example.call 5%N 0) _ _ (runtime.at_head_enter _ _ _) eq_refl
              toy_first_call eq_refl)
    as (ls & Hat & Hst & Hgas).
  exists ls. split; [exact Hat|]. split; [exact Hst|]. rewrite Hgas. reflexivity.
Defined.

Lemma toy_logs_present :
  forall i out, example.failing_outputs !! i = Some (Some out) ->
                Forall (fun log : option vm.Log => log <> None) (vm.Logs out).
Proof.
  intros [|[|[|i]]] out Hi; simpl in Hi; try discriminate;
    injection Hi as <-; repeat constructor; discriminate.
Qed.

Lemma ExecuteTransaction_receipt_converts_witness :
  exists r,
    types.ConvertReceipt example.failing_receipt = Some r /\
    types.GasUsed r = 30 /\ types.Reverted r = false /\ types.Outputs r = [].
Proof.
  destruct (ExecuteTransaction_receipt_converts example.rt example.tx_failing example.st0
              _ _ _ toy_run_failing toy_logs_present)
    as (r & Hr & Hg & Hrev & Hnone & _).
  exists r. split; [exact Hr|]. split; [exact Hg|]. split; [exact Hrev|].
  apply Hnone. reflexivity.
Defined.

(** ** What a run without failure leaves *)

Section SuccessfulRun.
Context {World Config : Type} `{!vm.VM World Config} `{!cs.Energy World}.

(** X16. When the receipt returned has outputs, the loop has reached the
    head after the last clause, and the state left is the state there,
    changed only by the energy paid back to the payer: nothing a clause
    wrote is reverted. *)
Theorem success_keeps_writes (rt : runtime.Runtime Config) (tx : Tx.Transaction)
    (s s' : state.State World) (rcpt : Tx.Receipt) (outs : list (option vm.Output))
    (outputs : list (option Tx.Output)) :
  runtime.ExecuteTransaction rt tx s = Some ((Some rcpt, Some outs, None), s') ->
  Tx.Outputs rcpt = Some outputs ->
  exists p lsf,
    runtime.precheck rt tx s = inl p /\
    runtime.at_head rt tx p (length (Tx.Clauses tx)) lsf /\
    Tx.GasUsed rcpt = sub64 (Tx.Gas tx) (runtime.leftOverGas lsf) /\
    state.world s' =
      cs.SetBalance (runtime.blockTime rt) (runtime.energyPayer p)
        (cs.GetBalance (runtime.blockTime rt) (runtime.energyPayer p)
                       (state.world (runtime.st lsf))
         + runtime.leftOverGas lsf * Tx.GasPrice tx)
        (state.world (runtime.st lsf)).
Proof.
  intros Hrun Hsome.
  destruct (runtime.precheck rt tx s) as [p|[e s1]] eqn:Hp;
    [|unfold runtime.ExecuteTransaction in Hrun; rewrite Hp in Hrun; discriminate].
  destruct (loop_outcome rt tx p) as (lsf & Hloop & Hend).
  rewrite (ExecuteTransaction_pass _ _ _ _ _ Hp Hloop), settle_eq in Hrun.
  injection Hrun as <- _ <-. simpl in Hsome.
  destruct Hend as [Hend|(k & lsk & c & Hk & Hc & Hbody)].
  - exists p, lsf. auto.
  - destruct (break_is_failure _ _ _ _ _ _ _ Hk Hc Hbody) as (out & e & Hout & He).
    rewrite (body_failure _ _ _ _ _ _ _ _ Hk Hc Hout He) in Hbody.
    injection Hbody as <-. discriminate.
Qed.

End SuccessfulRun.

Lemma success_keeps_writes_witness :
  exists rcpt outs s',
    runtime.ExecuteTransaction example.rt example.tx_ok example.st0
      = Some ((Some rcpt, Some outs, None), s') /\
    exists lsf,
      runtime.at_head example.rt example.tx_ok example.prechecked 2 lsf /\
      state.world s' = (fst (state.world (runtime.st lsf)) + runtime.leftOverGas lsf * 2,
                        snd (state.world (runtime.st lsf))).
Proof.
  destruct toy_run_ok as (rcpt & outputs & outs & s' & Hrun & Ho & _).
  destruct (success_keeps_writes example.rt example.tx_ok example.st0 _ _ _ _ Hrun Ho)
    as (p & lsf & Hp & Hat & _ & Hw).
  assert (Hpre : runtime.precheck example.rt example.tx_ok example.st0
                 = inl example.prechecked) by (vm_compute; reflexivity).
  rewrite Hpre in Hp. injection Hp as <-.
  exists rcpt, outs, s'. split; [exact Hrun|]. exists lsf. split; [exact Hat|exact Hw].
Defined.
